(** * coordinated_exit: a process-wide exit flag, exit reasons and an
      interrupt bridge (Go package [coordinated_exit])

    The package keeps five package-level variables ([shouldExit],
    [exitReasons], [signalAlreadyHandled], [exitCond], [mutex]) and offers
    [ShouldExit], [ExitReason], [ExitWithoutError], [ExitWithError],
    [ExitOnInterrupt] and [WaitForExit].  Goroutines run these functions
    concurrently, so every function is embedded as a step function over its
    program points (named after the source lines of coordinated_exit.go),
    and the program as a whole is the interleaving of the goroutines' steps
    with interrupts sent by the environment.  [ExitWithErrorf] and the
    worker of the demonstration program are embedded in the same way. *)

From stdpp Require Import base option list strings.

Set Warnings "-register-all".

(** ** Go [error] values *)

(** An [error] interface value: the nil interface, an error made by the
    caller ([errors.New], [fmt.Errorf]: [p] stands for the address of the
    value, which is what [==] compares, [msg] is its text), or the
    [joinError] that [errors.Join] returns, taken by its content. *)
Inductive error : Type :=
| Nil
| ErrNew (p : nat) (msg : string)
| joinError (errs : list error).

Definition is_nil (e : error) : bool :=
  match e with Nil => true | _ => false end.

(** The non-nil elements, in order ([errors.Join]'s second loop). *)
Fixpoint non_nil (errs : list error) : list error :=
  match errs with
  | [] => []
  | e :: rest => if is_nil e then non_nil rest else e :: non_nil rest
  end.

(** [errors.Join] of the Go standard library: nil values are discarded, the
    result is nil when every value is nil, otherwise a [joinError] that
    wraps the remaining values. *)
Definition Join (errs : list error) : error :=
  let n := length (non_nil errs) in
  if Nat.eqb n 0 then Nil else joinError (non_nil errs).

(** The method [Unwrap() []error] of joinError: the errors an error value
    reports as its constituents (other values have no such method: none). *)
Definition Unwrap (e : error) : list error :=
  match e with
  | joinError errs => errs
  | _ => []
  end.

(** ** Shared state *)

(** Goroutines are numbered in the order they are started. *)
Abbreviation tid := nat.

(** A [chan os.Signal] of capacity 1, together with what package
    [os/signal] knows about it. *)
Record chan : Type := Chan {
  buf : bool;       (* the one buffer slot holds a signal *)
  closed : bool;    (* close(c) has run *)
  notified : bool;  (* signal.Notify(c, os.Interrupt) is in force *)
}.

Inductive value : Type :=
| VBool (b : bool)
| VError (e : error)
| VUnit.

(** The exported functions, as a client goroutine calls them.
    [ExitWithErrorf] (lines 63-66) is [ExitWithError] on the error that
    [fmt.Errorf] makes, so [CExitWithError] stands for it too. *)
Inductive call : Type :=
| CShouldExit
| CExitReason
| CExitWithoutError
| CExitWithError (e : error)
| CExitOnInterrupt
| CWaitForExit.

(** Program points; the number is the source line about to run. *)
Inductive ExitReason_pc : Type :=
| ER_31 | ER_32 | ER_33 | ER_36 | ER_37 | ER_38 | ER_40 | ER_41 (e : error).

Inductive ExitWithoutError_pc : Type :=
| EWO_49 | EWO_50.

Inductive ExitWithError_pc : Type :=
| EWE_56 (e : error) | EWE_57 (e : error) | EWE_58
| EWE_59 (sub : ExitWithoutError_pc).

Inductive ExitOnInterrupt_pc : Type :=
| EOI_96 | EOI_97 | EOI_99 | EOI_103 | EOI_104 | EOI_105.

(** Line 121, [exitCond.Wait()], has three points: the call (enqueue on the
    notify list and unlock, atomically), the suspension, and the re-lock. *)
Inductive WaitForExit_pc : Type :=
| WFE_119 | WFE_120 | WFE_121 | WFE_121_suspended | WFE_121_relock
| WFE_123 | WFE_124 (sub : ExitReason_pc).

Inductive waitForInterruptRoutine_pc : Type :=
| WIR_72 | WIR_73 (c : nat) | WIR_75 (c : nat)
| WIR_85 (c : nat) (sub : WaitForExit_pc)
| WIR_86 (c : nat) | WIR_87 (c : nat) | WIR_ret.

(** The anonymous function of lines 75-81. *)
Inductive child_pc : Type :=
| CH_79 (c : nat) | CH_80 (sub : ExitWithoutError_pc) | CH_ret.

Inductive client_pc : Type :=
| Idle
| In_ShouldExit
| In_ExitReason (pc : ExitReason_pc)
| In_ExitWithoutError (pc : ExitWithoutError_pc)
| In_ExitWithError (pc : ExitWithError_pc)
| In_ExitOnInterrupt (pc : ExitOnInterrupt_pc)
| In_WaitForExit (pc : WaitForExit_pc).

(** A goroutine: a client that works through a list of calls and collects
    what they return, the routine started by [ExitOnInterrupt], or the
    routine's child. *)
Inductive goroutine : Type :=
| Client (pc : client_pc) (todo : list call) (rets : list value)
| Bridge (pc : waitForInterruptRoutine_pc)
| Child (pc : child_pc).

Record state : Type := State {
  shouldExit : bool;             (* var shouldExit atomic.Bool *)
  exitReasons : list error;      (* var exitReasons []error *)
  signalAlreadyHandled : bool;   (* var signalAlreadyHandled bool *)
  mutex : option tid;            (* var mutex sync.Mutex: locked, and by whom *)
  exitCond : list tid;           (* exitCond's notify list: suspended in Wait *)
  chans : list chan;             (* the channels made so far *)
  killed : bool;                 (* an unhandled interrupt ended the process *)
  goroutines : list goroutine;
}.

Definition set_shouldExit (b : bool) (s : state) : state :=
  State b (exitReasons s) (signalAlreadyHandled s) (mutex s) (exitCond s)
        (chans s) (killed s) (goroutines s).
Definition set_exitReasons (l : list error) (s : state) : state :=
  State (shouldExit s) l (signalAlreadyHandled s) (mutex s) (exitCond s)
        (chans s) (killed s) (goroutines s).
Definition set_signalAlreadyHandled (b : bool) (s : state) : state :=
  State (shouldExit s) (exitReasons s) b (mutex s) (exitCond s)
        (chans s) (killed s) (goroutines s).
Definition set_mutex (m : option tid) (s : state) : state :=
  State (shouldExit s) (exitReasons s) (signalAlreadyHandled s) m (exitCond s)
        (chans s) (killed s) (goroutines s).
Definition set_exitCond (w : list tid) (s : state) : state :=
  State (shouldExit s) (exitReasons s) (signalAlreadyHandled s) (mutex s) w
        (chans s) (killed s) (goroutines s).
Definition set_chans (cs : list chan) (s : state) : state :=
  State (shouldExit s) (exitReasons s) (signalAlreadyHandled s) (mutex s)
        (exitCond s) cs (killed s) (goroutines s).
Definition set_killed (b : bool) (s : state) : state :=
  State (shouldExit s) (exitReasons s) (signalAlreadyHandled s) (mutex s)
        (exitCond s) (chans s) b (goroutines s).
Definition set_goroutines (gs : list goroutine) (s : state) : state :=
  State (shouldExit s) (exitReasons s) (signalAlreadyHandled s) (mutex s)
        (exitCond s) (chans s) (killed s) gs.

Arguments set_shouldExit _ _ /.
Arguments set_exitReasons _ _ /.
Arguments set_signalAlreadyHandled _ _ /.
Arguments set_mutex _ _ /.
Arguments set_exitCond _ _ /.
Arguments set_chans _ _ /.
Arguments set_killed _ _ /.
Arguments set_goroutines _ _ /.

(** ** sync.Mutex, sync.Cond, channels and os/signal *)

(** [mutex.Lock()]: proceeds only when the mutex is free. *)
Definition Lock (t : tid) (s : state) : option state :=
  match mutex s with
  | None => Some (set_mutex (Some t) s)
  | Some _ => None
  end.

(** [mutex.Unlock()]: unlocking an unlocked mutex is a fatal error. *)
Definition Unlock (s : state) : option state :=
  match mutex s with
  | Some _ => Some (set_mutex None s)
  | None => None
  end.

(** [exitCond.Broadcast()]: wakes every goroutine on the notify list. *)
Definition Broadcast (s : state) : state := set_exitCond [] s.

Definition on_list (t : tid) (w : list tid) : bool :=
  existsb (Nat.eqb t) w.

Definition set_notified (b : bool) (ch : chan) : chan :=
  Chan (buf ch) (closed ch) b.
Definition set_buf (b : bool) (ch : chan) : chan :=
  Chan b (closed ch) (notified ch).
Definition set_closed (b : bool) (ch : chan) : chan :=
  Chan (buf ch) b (notified ch).

(** Delivery of os.Interrupt by package os/signal: a non-blocking send to
    every channel registered with Notify. *)
Definition deliver (ch : chan) : chan :=
  if notified ch then set_buf true ch else ch.

(** The environment sends os.Interrupt.  With a registered channel the
    signal is relayed; with none the default action ends the process. *)
Definition interrupt (s : state) : state :=
  if existsb notified (chans s)
  then set_chans (deliver <$> chans s) s
  else set_killed true s.

(** Channel operations fail on a channel that was never made. *)
Definition update_chan (c : nat) (f : chan → chan) (s : state) : option state :=
  match chans s !! c with
  | Some ch => Some (set_chans (<[c := f ch]> (chans s)) s)
  | None => None
  end.

(** [<-c]: takes the buffered signal, or returns at once on a closed
    channel, or blocks. *)
Definition receive (c : nat) (s : state) : option state :=
  match chans s !! c with
  | Some ch =>
      if buf ch then Some (set_chans (<[c := set_buf false ch]> (chans s)) s)
      else if closed ch then Some s
      else None
  | None => None
  end.

(** [close(c)]: closing a closed channel panics. *)
Definition close (c : nat) (s : state) : option state :=
  match chans s !! c with
  | Some ch =>
      if closed ch then None
      else Some (set_chans (<[c := set_closed true ch]> (chans s)) s)
  | None => None
  end.

(** ** The functions of coordinated_exit.go *)

(** A step of a function either moves to another program point of the
    function or returns. *)
Definition step_of (PC R : Type) : Type :=
  tid → PC → state → option (state * (PC + R)).

(** Lines 25-27. *)
Definition ShouldExit (s : state) : bool := shouldExit s.

(** Lines 30-43. *)
Definition ExitReason : step_of ExitReason_pc error := λ t pc s,
  match pc with
  | ER_31 => s' ← Lock t s; Some (s', inl ER_32)
  | ER_32 =>
      if Nat.eqb (length (exitReasons s)) 0
      then Some (s, inl ER_33) else Some (s, inl ER_36)
  | ER_33 => s' ← Unlock s; Some (s', inr Nil)
  | ER_36 =>
      if Nat.eqb (length (exitReasons s)) 1
      then Some (s, inl ER_37) else Some (s, inl ER_40)
  | ER_37 => s' ← Unlock s; Some (s', inl ER_38)
  | ER_38 => e ← exitReasons s !! 0; Some (s, inr e)
  | ER_40 => Some (s, inl (ER_41 (Join (exitReasons s))))
  | ER_41 e => s' ← Unlock s; Some (s', inr e)
  end.

(** Lines 48-51. *)
Definition ExitWithoutError : step_of ExitWithoutError_pc unit := λ t pc s,
  match pc with
  | EWO_49 => Some (set_shouldExit true s, inl EWO_50)
  | EWO_50 => Some (Broadcast s, inr tt)
  end.

(** Lines 55-60. *)
Definition ExitWithError : step_of ExitWithError_pc unit := λ t pc s,
  match pc with
  | EWE_56 e => s' ← Lock t s; Some (s', inl (EWE_57 e))
  | EWE_57 e => Some (set_exitReasons (exitReasons s ++ [e]) s, inl EWE_58)
  | EWE_58 => s' ← Unlock s; Some (s', inl (EWE_59 EWO_49))
  | EWE_59 sub =>
      '(s', o) ← ExitWithoutError t sub s;
      match o with
      | inl sub' => Some (s', inl (EWE_59 sub'))
      | inr r => Some (s', inr r)
      end
  end.

(** Lines 118-125. *)
Definition WaitForExit : step_of WaitForExit_pc error := λ t pc s,
  match pc with
  | WFE_119 => s' ← Lock t s; Some (s', inl WFE_120)
  | WFE_120 =>
      if shouldExit s then Some (s, inl WFE_123) else Some (s, inl WFE_121)
  | WFE_121 =>
      s' ← Unlock s;
      Some (set_exitCond (exitCond s' ++ [t]) s', inl WFE_121_suspended)
  | WFE_121_suspended =>
      if on_list t (exitCond s) then None else Some (s, inl WFE_121_relock)
  | WFE_121_relock => s' ← Lock t s; Some (s', inl WFE_120)
  | WFE_123 => s' ← Unlock s; Some (s', inl (WFE_124 ER_31))
  | WFE_124 sub =>
      '(s', o) ← ExitReason t sub s;
      match o with
      | inl sub' => Some (s', inl (WFE_124 sub'))
      | inr e => Some (s', inr e)
      end
  end.

(** Lines 75-81: the goroutine that waits on the channel. *)
Definition child : step_of child_pc unit := λ t pc s,
  match pc with
  | CH_79 c => s' ← receive c s; Some (s', inl (CH_80 EWO_49))
  | CH_80 sub =>
      '(s', o) ← ExitWithoutError t sub s;
      match o with
      | inl sub' => Some (s', inl (CH_80 sub'))
      | inr _ => Some (s', inl CH_ret)
      end
  | CH_ret => None
  end.

(** [go f()]: the new goroutine gets the next free identifier. *)
Definition go (g : goroutine) (s : state) : state :=
  set_goroutines (goroutines s ++ [g]) s.

(** Lines 71-88. *)
Definition waitForInterruptRoutine : step_of waitForInterruptRoutine_pc unit :=
  λ t pc s,
  match pc with
  | WIR_72 =>
      Some (set_chans (chans s ++ [Chan false false false]) s,
            inl (WIR_73 (length (chans s))))
  | WIR_73 c => s' ← update_chan c (set_notified true) s; Some (s', inl (WIR_75 c))
  | WIR_75 c => Some (go (Child (CH_79 c)) s, inl (WIR_85 c WFE_119))
  | WIR_85 c sub =>
      '(s', o) ← WaitForExit t sub s;
      match o with
      | inl sub' => Some (s', inl (WIR_85 c sub'))
      | inr _ => Some (s', inl (WIR_86 c))
      end
  | WIR_86 c => s' ← update_chan c (set_notified false) s; Some (s', inl (WIR_87 c))
  | WIR_87 c => s' ← close c s; Some (s', inl WIR_ret)
  | WIR_ret => None
  end.

(** Lines 95-106. *)
Definition ExitOnInterrupt : step_of ExitOnInterrupt_pc unit := λ t pc s,
  match pc with
  | EOI_96 => s' ← Lock t s; Some (s', inl EOI_97)
  | EOI_97 =>
      if signalAlreadyHandled s
      then Some (s, inl EOI_99) else Some (s, inl EOI_103)
  | EOI_99 => s' ← Unlock s; Some (s', inr tt)
  | EOI_103 => Some (go (Bridge WIR_72) s, inl EOI_104)
  | EOI_104 => Some (set_signalAlreadyHandled true s, inl EOI_105)
  | EOI_105 => s' ← Unlock s; Some (s', inr tt)
  end.

(** Lines 127-130, [init]: a condition variable on [mutex], no reasons; the
    other variables have their zero values.  The goroutines are the
    clients, each with the calls it is going to make. *)
Definition init (clients : list (list call)) : state :=
  State false [] false None [] [] false
        ((λ todo, Client Idle todo []) <$> clients).

(** ** Goroutines and their interleaving *)

Definition entry (c : call) : client_pc :=
  match c with
  | CShouldExit => In_ShouldExit
  | CExitReason => In_ExitReason ER_31
  | CExitWithoutError => In_ExitWithoutError EWO_49
  | CExitWithError e => In_ExitWithError (EWE_56 e)
  | CExitOnInterrupt => In_ExitOnInterrupt EOI_96
  | CWaitForExit => In_WaitForExit WFE_119
  end.

(** One step of a function inside a goroutine: [inside] rebuilds the
    goroutine at the new program point, [after] when the function returns. *)
Definition within {PC R : Type} (r : option (state * (PC + R)))
    (inside : PC → goroutine) (after : R → goroutine)
  : option (state * goroutine) :=
  '(s', o) ← r;
  Some (s', match o with inl pc => inside pc | inr v => after v end).

Definition step_client (t : tid) (pc : client_pc) (todo : list call)
    (rets : list value) (s : state) : option (state * goroutine) :=
  let back v := Client Idle todo (rets ++ [v]) in
  match pc with
  | Idle =>
      match todo with
      | [] => None
      | c :: rest => Some (s, Client (entry c) rest rets)
      end
  | In_ShouldExit => Some (s, back (VBool (ShouldExit s)))
  | In_ExitReason p =>
      within (ExitReason t p s)
             (λ p', Client (In_ExitReason p') todo rets) (λ e, back (VError e))
  | In_ExitWithoutError p =>
      within (ExitWithoutError t p s)
             (λ p', Client (In_ExitWithoutError p') todo rets) (λ _, back VUnit)
  | In_ExitWithError p =>
      within (ExitWithError t p s)
             (λ p', Client (In_ExitWithError p') todo rets) (λ _, back VUnit)
  | In_ExitOnInterrupt p =>
      within (ExitOnInterrupt t p s)
             (λ p', Client (In_ExitOnInterrupt p') todo rets) (λ _, back VUnit)
  | In_WaitForExit p =>
      within (WaitForExit t p s)
             (λ p', Client (In_WaitForExit p') todo rets) (λ e, back (VError e))
  end.

Definition step_goroutine (t : tid) (g : goroutine) (s : state)
  : option (state * goroutine) :=
  match g with
  | Client pc todo rets => step_client t pc todo rets s
  | Bridge pc =>
      within (waitForInterruptRoutine t pc s) Bridge (λ _, Bridge WIR_ret)
  | Child pc => within (child t pc s) Child (λ _, Child CH_ret)
  end.

(** What can happen next: goroutine [t] takes a step, or the environment
    sends os.Interrupt. *)
Inductive label : Type :=
| Run (t : tid)
| Interrupt.

(** Nothing runs once the process has been ended. *)
Definition step (l : label) (s : state) : option state :=
  if killed s then None
  else match l with
       | Run t =>
           g ← goroutines s !! t;
           '(s', g') ← step_goroutine t g s;
           Some (set_goroutines (<[t := g']> (goroutines s')) s')
       | Interrupt => Some (interrupt s)
       end.

Fixpoint exec (trace : list label) (s : state) : option state :=
  match trace with
  | [] => Some s
  | l :: rest => s' ← step l s; exec rest s'
  end.

Definition reachable (s : state) : Prop :=
  ∃ clients trace, exec trace (init clients) = Some s.

(** Goroutine [t] has no step in [s]: it is blocked, or has finished. *)
Definition blocked (t : tid) (s : state) : bool :=
  match step (Run t) s with Some _ => false | None => true end.

(** A function run to its return with no other goroutine scheduled in
    between: the final state and the returned value, when [fuel] steps
    suffice and no step blocks. *)
Fixpoint run {PC R : Type} (f : step_of PC R) (t : tid) (fuel : nat)
    (pc : PC) (s : state) : option (state * R) :=
  match fuel with
  | 0 => None
  | S fuel' =>
      '(s', o) ← f t pc s;
      match o with
      | inl pc' => run f t fuel' pc' s'
      | inr r => Some (s', r)
      end
  end.

(** ** Predicates on goroutines, and the invariants of the package *)

(** Program points between a [Lock] and the matching [Unlock]. *)
Definition critical_ER (pc : ExitReason_pc) : bool :=
  match pc with ER_31 | ER_38 => false | _ => true end.
Definition critical_EWE (pc : ExitWithError_pc) : bool :=
  match pc with EWE_57 _ | EWE_58 => true | _ => false end.
Definition critical_EOI (pc : ExitOnInterrupt_pc) : bool :=
  match pc with EOI_96 => false | _ => true end.
Definition critical_WFE (pc : WaitForExit_pc) : bool :=
  match pc with
  | WFE_120 | WFE_121 | WFE_123 => true
  | WFE_124 sub => critical_ER sub
  | _ => false
  end.
Definition critical (g : goroutine) : bool :=
  match g with
  | Client (In_ExitReason pc) _ _ => critical_ER pc
  | Client (In_ExitWithError pc) _ _ => critical_EWE pc
  | Client (In_ExitOnInterrupt pc) _ _ => critical_EOI pc
  | Client (In_WaitForExit pc) _ _ => critical_WFE pc
  | Bridge (WIR_85 _ pc) => critical_WFE pc
  | _ => false
  end.

Definition is_bridge (g : goroutine) : bool :=
  match g with Bridge _ => true | _ => false end.

Definition is_child (g : goroutine) : bool :=
  match g with Child _ => true | _ => false end.

(** The routine has not yet started its child (lines 72-75). *)
Definition pending (g : goroutine) : bool :=
  match g with
  | Bridge WIR_72 | Bridge (WIR_73 _) | Bridge (WIR_75 _) => true
  | _ => false
  end.

Fixpoint count (p : goroutine → bool) (gs : list goroutine) : nat :=
  match gs with
  | [] => 0
  | g :: rest => (if p g then 1 else 0) + count p rest
  end.

(** How many goroutines run [waitForInterruptRoutine], and how many the
    function of lines 75-81; a goroutine stays in the list after it has
    returned, so these count all that were ever started. *)
Abbreviation bridges := (count is_bridge).
Abbreviation children := (count is_child).

(** The goroutine that the next step of [g] starts, if any. *)
Definition spawned (g : goroutine) : list goroutine :=
  match g with
  | Client (In_ExitOnInterrupt EOI_103) _ _ => [Bridge WIR_72]
  | Bridge (WIR_75 c) => [Child (CH_79 c)]
  | _ => []
  end.

Definition at_103 (g : goroutine) : bool :=
  match g with Client (In_ExitOnInterrupt EOI_103) _ _ => true | _ => false end.
Definition at_104 (g : goroutine) : bool :=
  match g with Client (In_ExitOnInterrupt EOI_104) _ _ => true | _ => false end.

(** The routine has registered channel [i] and not yet stopped it. *)
Definition listens (g : goroutine) (i : nat) : bool :=
  match g with
  | Bridge (WIR_75 c) | Bridge (WIR_85 c _) | Bridge (WIR_86 c) => Nat.eqb c i
  | _ => false
  end.

(** The goroutine is about to call [exitCond.Wait()] (line 121). *)
Definition calls_Wait (g : goroutine) : bool :=
  match g with
  | Client (In_WaitForExit WFE_121) _ _ | Bridge (WIR_85 _ WFE_121) => true
  | _ => false
  end.

(** The routine is past [signal.Stop(c)] of line 86. *)
Definition torn_down (g : goroutine) : bool :=
  match g with
  | Bridge (WIR_87 _) | Bridge WIR_ret => true
  | _ => false
  end.

(** Only the goroutine that holds [mutex] is in a critical section. *)
Definition mutex_inv (s : state) : Prop :=
  ∀ t g, goroutines s !! t = Some g → critical g = true → mutex s = Some t.

(** [signalAlreadyHandled] counts the routines started, up to the window
    between lines 103 and 104, which is inside the critical section. *)
Definition bridge_inv (s : state) : Prop :=
  (∀ t g, goroutines s !! t = Some g → at_103 g = true →
          signalAlreadyHandled s = false ∧ bridges (goroutines s) = 0) ∧
  (∀ t g, goroutines s !! t = Some g → at_104 g = true →
          bridges (goroutines s) = 1) ∧
  bridges (goroutines s) ≤ 1 ∧
  (signalAlreadyHandled s = false →
     bridges (goroutines s) = 0 ∨
     ∃ t g, goroutines s !! t = Some g ∧ at_104 g = true) ∧
  (signalAlreadyHandled s = true → bridges (goroutines s) = 1).

(** A registered channel belongs to a routine between lines 73 and 86. *)
Definition notify_inv (s : state) : Prop :=
  ∀ i ch, chans s !! i = Some ch → notified ch = true →
          ∃ t g, goroutines s !! t = Some g ∧ listens g i = true.

(** Every routine past line 75 has started exactly one child. *)
Definition child_inv (s : state) : Prop :=
  children (goroutines s) + count pending (goroutines s) =
  bridges (goroutines s).

Definition inv (s : state) : Prop :=
  mutex_inv s ∧ bridge_inv s ∧ notify_inv s ∧ child_inv s.

(** A call made with no other goroutine running: the state it leaves and
    the value it returns.  The fuel covers the longest path of each
    function; [WaitForExit] has no result when it would suspend. *)
Definition call_run (t : tid) (c : call) (s : state) : option (state * value) :=
  match c with
  | CShouldExit => Some (s, VBool (ShouldExit s))
  | CExitReason => '(s', e) ← run ExitReason t 5 ER_31 s; Some (s', VError e)
  | CExitWithoutError =>
      '(s', _) ← run ExitWithoutError t 2 EWO_49 s; Some (s', VUnit)
  | CExitWithError e =>
      '(s', _) ← run ExitWithError t 5 (EWE_56 e) s; Some (s', VUnit)
  | CExitOnInterrupt =>
      '(s', _) ← run ExitOnInterrupt t 5 EOI_96 s; Some (s', VUnit)
  | CWaitForExit => '(s', e) ← run WaitForExit t 8 WFE_119 s; Some (s', VError e)
  end.

Fixpoint calls_run (t : tid) (cs : list call) (s : state)
  : option (state * list value) :=
  match cs with
  | [] => Some (s, [])
  | c :: rest =>
      '(s1, v) ← call_run t c s;
      '(s2, vs) ← calls_run t rest s1;
      Some (s2, v :: vs)
  end.

Definition is_ExitWithError (c : call) : bool :=
  match c with CExitWithError _ => true | _ => false end.

(** What [ExitReason] returns, read off the reason log. *)
Definition reason_of (log : list error) : error :=
  match log with
  | [] => Nil
  | [e] => e
  | _ => Join log
  end.

(** The values [ShouldExit] returned to a client, oldest first. *)
Fixpoint polls (rets : list value) : list bool :=
  match rets with
  | [] => []
  | VBool b :: rest => b :: polls rest
  | _ :: rest => polls rest
  end.

(** Once true, always true afterwards. *)
Definition settled (bs : list bool) : Prop :=
  ∀ i j b, i ≤ j → bs !! i = Some true → bs !! j = Some b → b = true.

(** The values of the exit flag along an execution, first to last. *)
Fixpoint flags (trace : list label) (s : state) : list bool :=
  shouldExit s ::
  match trace with
  | [] => []
  | l :: rest =>
      match step l s with
      | Some s' => flags rest s'
      | None => []
      end
  end.

(** What each client has seen of the flag agrees with the flag. *)
Definition poll_inv (s : state) : Prop :=
  ∀ t pc todo rets,
    goroutines s !! t = Some (Client pc todo rets) →
    settled (polls rets) ∧ (true ∈ polls rets → shouldExit s = true).

(** A step function looks at the goroutine list only to add to it. *)
Definition indep {PC R : Type} (f : step_of PC R) : Prop :=
  ∀ t p s s' o,
    f t p s = Some (s', o) →
    ∃ new,
      goroutines s' = goroutines s ++ new ∧ killed s' = killed s ∧
      ∀ gs, f t p (set_goroutines gs s) = Some (set_goroutines (gs ++ new) s', o).

(** ** ExitWithErrorf *)

(** Lines 63-66.  [any] is the type of the variadic arguments and
    [Errorf] is [fmt.Errorf]. *)
Inductive ExitWithErrorf_pc (any : Type) : Type :=
| EWF_64 (format : string) (args : list any)
| EWF_65 (sub : ExitWithError_pc).

Arguments EWF_64 {any} format args.
Arguments EWF_65 {any} sub.

Definition ExitWithErrorf {any : Type} (Errorf : string → list any → error)
  : step_of (ExitWithErrorf_pc any) unit := λ t pc s,
  match pc with
  | EWF_64 format args => Some (s, inl (EWF_65 (EWE_56 (Errorf format args))))
  | EWF_65 sub =>
      '(s', o) ← ExitWithError t sub s;
      match o with
      | inl sub' => Some (s', inl (EWF_65 sub'))
      | inr r => Some (s', inr r)
      end
  end.

(** ** The worker of the demonstration program *)

(** What a worker does besides calling the package. *)
Inductive event : Type :=
| Printf (format : string) (args : list Z)
| Sleep (seconds : Z).

(** Go's [int] on a 64-bit platform. *)
Definition wrap (z : Z) : Z := ((z + 2 ^ 63) `mod` 2 ^ 64 - 2 ^ 63)%Z.

Inductive runWorker_pc : Type :=
| RW_23 | RW_24 | RW_25 (i : Z) | RW_26 (i : Z) | RW_29 (i : Z)
| RW_31 (i : Z) (sub : ExitWithoutError_pc) | RW_32 (i : Z).

(** A step that also says what it printed and how long it slept. *)
Definition step_out (PC R : Type) : Type :=
  tid → PC → state → option (state * list event * (PC + R)).

(** The format strings, as the source writes them. *)
Definition format_23 : string := "Worker ID %d should sleep for %d seconds.\n".
Definition format_32 : string :=
  "Worker ID %d exited after %d/%d iterations.\n".

(** Lines 22-34 of the demonstration program.  [RW_29] is the sleep of
    line 29 followed by the [i++] of line 25. *)
Definition runWorker (workerID n : Z) : step_out runWorker_pc unit := λ t pc s,
  match pc with
  | RW_23 => Some (s, [Printf format_23 [workerID; n]], inl RW_24)
  | RW_24 => Some (s, [], inl (RW_25 0))
  | RW_25 i =>
      if (i <? n)%Z then Some (s, [], inl (RW_26 i))
      else Some (s, [], inl (RW_31 i EWO_49))
  | RW_26 i =>
      if ShouldExit s then Some (s, [], inl (RW_31 i EWO_49))
      else Some (s, [], inl (RW_29 i))
  | RW_29 i => Some (s, [Sleep 1], inl (RW_25 (wrap (i + 1))))
  | RW_31 i sub =>
      '(s', o) ← ExitWithoutError t sub s;
      match o with
      | inl sub' => Some (s', [], inl (RW_31 i sub'))
      | inr _ => Some (s', [], inl (RW_32 i))
      end
  | RW_32 i =>
      Some (s, [Printf format_32 [workerID; wrap (i + 1); n]], inr tt)
  end.

(** A function run among others: before each of its steps the rest of the
    program changes the state as the next element of [others] says.  The
    result is where the function stands when [others] is used up. *)
Fixpoint run_among {PC R : Type} (f : step_out PC R) (t : tid)
    (others : list (state → state)) (pc : PC) (s : state)
  : option (state * list event * (PC + R)) :=
  match others with
  | [] => Some (s, [], inl pc)
  | other :: rest =>
      '(s1, ev, o) ← f t pc (other s);
      match o with
      | inl pc' =>
          '(s2, evs, o') ← run_among f t rest pc' s1;
          Some (s2, ev ++ evs, o')
      | inr r => Some (s1, ev, inr r)
      end
  end.

(** The goroutines of the package run [trace], as far as it can be run. *)
Definition after (trace : list label) (s : state) : state :=
  default s (exec trace s).

Definition keeps_flag (other : state → state) : Prop :=
  ∀ s, shouldExit s = true → shouldExit (other s) = true.

(** How often the worker slept. *)
Fixpoint sleeps (evs : list event) : nat :=
  match evs with
  | [] => 0
  | Sleep _ :: rest => S (sleeps rest)
  | Printf _ _ :: rest => sleeps rest
  end.

(** The steps a worker has left at most when it is asked for [n]
    iterations, and the sleeps. *)
Definition steps_left (n : Z) (pc : runWorker_pc) : nat :=
  match pc with
  | RW_23 => 3 * Z.to_nat n + 6
  | RW_24 => 3 * Z.to_nat n + 5
  | RW_25 i => 3 * Z.to_nat (n - i) + 4
  | RW_26 i => 3 * Z.to_nat (n - i) + 3
  | RW_29 i => 3 * Z.to_nat (n - i) + 2
  | RW_31 _ EWO_49 => 3
  | RW_31 _ EWO_50 => 2
  | RW_32 _ => 1
  end.

Definition sleeps_left (n : Z) (pc : runWorker_pc) : nat :=
  match pc with
  | RW_23 | RW_24 => Z.to_nat n
  | RW_25 i | RW_26 i | RW_29 i => Z.to_nat (n - i)
  | _ => 0
  end.

(** The loop counter is in the range the loop keeps it in. *)
Definition in_loop (n : Z) (pc : runWorker_pc) : Prop :=
  match pc with
  | RW_25 i => (0 ≤ i)%Z
  | RW_26 i | RW_29 i => (0 ≤ i < n)%Z
  | _ => True
  end.

(** The steps left once the exit flag is set. *)
Definition steps_left_flagged (pc : runWorker_pc) : nat :=
  match pc with
  | RW_23 => 7
  | RW_24 | RW_29 _ => 6
  | RW_25 _ => 5
  | RW_26 _ => 4
  | RW_31 _ EWO_49 => 3
  | RW_31 _ EWO_50 => 2
  | RW_32 _ => 1
  end.

(** The worker is about to sleep (line 29). *)
Definition at_Sleep (pc : runWorker_pc) : nat :=
  match pc with RW_29 _ => 1 | _ => 0 end.

(** ** Further predicates and invariants *)

(** The goroutine is in the one-entry branch of [ExitReason] (lines 37-38),
    where [exitReasons[0]] is read after the mutex is released. *)
Definition reads_first_ER (pc : ExitReason_pc) : bool :=
  match pc with ER_37 | ER_38 => true | _ => false end.
Definition reads_first_WFE (pc : WaitForExit_pc) : bool :=
  match pc with WFE_124 sub => reads_first_ER sub | _ => false end.
Definition reads_first (g : goroutine) : bool :=
  match g with
  | Client (In_ExitReason pc) _ _ => reads_first_ER pc
  | Client (In_WaitForExit pc) _ _ => reads_first_WFE pc
  | Bridge (WIR_85 _ pc) => reads_first_WFE pc
  | _ => false
  end.

(** The channel a goroutine holds in its variable [c]. *)
Definition chan_of (g : goroutine) : option nat :=
  match g with
  | Bridge (WIR_73 c) | Bridge (WIR_75 c) | Bridge (WIR_85 c _)
  | Bridge (WIR_86 c) | Bridge (WIR_87 c) => Some c
  | Child (CH_79 c) => Some c
  | _ => None
  end.

(** Line 38 finds an entry to read. *)
Definition log_inv (s : state) : Prop :=
  ∀ t g, goroutines s !! t = Some g → reads_first g = true →
         exitReasons s ≠ [].

(** A goroutine's channel has been made, and the routine's is open. *)
Definition chan_inv (s : state) : Prop :=
  ∀ t g c, goroutines s !! t = Some g → chan_of g = Some c →
           ∃ ch, chans s !! c = Some ch ∧ (is_bridge g = true → closed ch = false).

Definition safe_inv (s : state) : Prop := inv s ∧ log_inv s ∧ chan_inv s.

(** What a goroutine without a step is waiting for. *)
Inductive wait : Type := Finished | ForMutex | ForBroadcast | ForSignal.

Definition finished (g : goroutine) : bool :=
  match g with
  | Client Idle [] _ | Bridge WIR_ret | Child CH_ret => true
  | _ => false
  end.

Definition at_Lock_WFE (pc : WaitForExit_pc) : bool :=
  match pc with
  | WFE_119 | WFE_121_relock | WFE_124 ER_31 => true
  | _ => false
  end.

(** The goroutine is about to lock [mutex]. *)
Definition at_Lock (g : goroutine) : bool :=
  match g with
  | Client (In_ExitReason ER_31) _ _ => true
  | Client (In_ExitWithError (EWE_56 _)) _ _ => true
  | Client (In_ExitOnInterrupt EOI_96) _ _ => true
  | Client (In_WaitForExit pc) _ _ | Bridge (WIR_85 _ pc) => at_Lock_WFE pc
  | _ => false
  end.

(** The goroutine is suspended in [exitCond.Wait()]. *)
Definition suspended (g : goroutine) : bool :=
  match g with
  | Client (In_WaitForExit WFE_121_suspended) _ _
  | Bridge (WIR_85 _ WFE_121_suspended) => true
  | _ => false
  end.

Definition waits (t : tid) (g : goroutine) (s : state) : option wait :=
  if finished g then Some Finished
  else if at_Lock g then
    match mutex s with Some _ => Some ForMutex | None => None end
  else if suspended g then
    if on_list t (exitCond s) then Some ForBroadcast else None
  else
    match g with
    | Child (CH_79 c) =>
        match chans s !! c with
        | Some ch => if buf ch || closed ch then None else Some ForSignal
        | None => None
        end
    | _ => None
    end.

(** A held mutex has a holder, and the holder is in a critical section. *)
Definition holder_inv (s : state) : Prop :=
  ∀ t, mutex s = Some t →
       ∃ g, goroutines s !! t = Some g ∧ critical g = true.

(** The goroutine has left the loop of [WaitForExit] (line 120). *)
Definition past_loop_WFE (pc : WaitForExit_pc) : bool :=
  match pc with WFE_123 | WFE_124 _ => true | _ => false end.
Definition past_loop (g : goroutine) : bool :=
  match g with
  | Client (In_WaitForExit pc) _ _ | Bridge (WIR_85 _ pc) => past_loop_WFE pc
  | Bridge (WIR_86 _) | Bridge (WIR_87 _) | Bridge WIR_ret => true
  | _ => false
  end.

Definition flag_inv (s : state) : Prop :=
  ∀ t g, goroutines s !! t = Some g → past_loop g = true → shouldExit s = true.

(** The goroutine has appended its reason and not yet stored the flag
    (between lines 57 and 49 of [ExitWithError]). *)
Definition pre_store (g : goroutine) : bool :=
  match g with
  | Client (In_ExitWithError EWE_58) _ _
  | Client (In_ExitWithError (EWE_59 EWO_49)) _ _ => true
  | _ => false
  end.

Definition signal_inv (s : state) : Prop :=
  exitReasons s ≠ [] →
  shouldExit s = true ∨ ∃ t g, goroutines s !! t = Some g ∧ pre_store g = true.

(** [e] is what [ExitReason] makes of the reasons recorded up to some
    moment: of a prefix of the log. *)
Definition snapshot (log : list error) (e : error) : Prop :=
  ∃ l, l `prefix_of` log ∧ e = reason_of l.

(** What the tests of lines 32 and 36 have established at a program point
    of [ExitReason], and what the value computed at line 40 is. *)
Definition snap_ER (log : list error) (pc : ExitReason_pc) : Prop :=
  match pc with
  | ER_36 | ER_37 | ER_38 => 1 ≤ length log
  | ER_40 => 2 ≤ length log
  | ER_41 e => snapshot log e
  | _ => True
  end.

Definition snap_WFE (log : list error) (pc : WaitForExit_pc) : Prop :=
  match pc with WFE_124 sub => snap_ER log sub | _ => True end.

Definition snap_ret (log : list error) (v : value) : Prop :=
  match v with VError e => snapshot log e | _ => True end.

Definition snap (log : list error) (g : goroutine) : Prop :=
  match g with
  | Client pc _ rets =>
      match pc with
      | In_ExitReason p => snap_ER log p
      | In_WaitForExit p => snap_WFE log p
      | _ => True
      end ∧ Forall (snap_ret log) rets
  | Bridge (WIR_85 _ p) => snap_WFE log p
  | _ => True
  end.

Definition snap_inv (s : state) : Prop :=
  ∀ t g, goroutines s !! t = Some g → snap (exitReasons s) g.

(** The goroutine is in [ExitWithError] or has a call of it to make. *)
Definition adds_reason (g : goroutine) : bool :=
  match g with
  | Client pc todo _ =>
      match pc with In_ExitWithError _ => true | _ => false end
      || existsb is_ExitWithError todo
  | _ => false
  end.

Definition quiet_inv (s : state) : Prop :=
  exitReasons s = [] ∧
  ∀ t g, goroutines s !! t = Some g → adds_reason g = false.

(** The goroutine is in [ExitOnInterrupt], has a call of it to make, or was
    started by it. *)
Definition installs (g : goroutine) : bool :=
  match g with
  | Client pc todo _ =>
      match pc with In_ExitOnInterrupt _ => true | _ => false end
      || existsb (λ c, match c with CExitOnInterrupt => true | _ => false end)
                 todo
  | _ => true
  end.

Definition plain_inv (n : nat) (s : state) : Prop :=
  chans s = [] ∧ signalAlreadyHandled s = false ∧
  length (goroutines s) = n ∧
  ∀ t g, goroutines s !! t = Some g → installs g = false.

(** A child that waits on its channel has the routine to close it, or the
    channel is closed. *)
Definition released_inv (s : state) : Prop :=
  ∀ t c, goroutines s !! t = Some (Child (CH_79 c)) →
    (∃ ch, chans s !! c = Some ch ∧ closed ch = true) ∨
    (∃ t' g, goroutines s !! t' = Some g ∧ is_bridge g = true ∧
             chan_of g = Some c).

(** The routine has called [signal.Notify] (line 73). *)
Definition past_Notify (g : goroutine) : bool :=
  match g with
  | Bridge WIR_72 | Bridge (WIR_73 _) => false
  | Bridge _ => true
  | _ => false
  end.

(** The channel of a listening routine is registered. *)
Definition listen_inv (s : state) : Prop :=
  ∀ t g c, goroutines s !! t = Some g → listens g c = true →
           ∃ ch, chans s !! c = Some ch ∧ notified ch = true.

(** ** Schedules *)

(** The schedule that loses the wake-up: goroutine 0 enters
    [WaitForExit], locks and reads the flag (false); goroutine 1 runs all
    of [ExitWithoutError]; goroutine 0 then calls [exitCond.Wait()]. *)
Definition lost_wakeup : list label :=
  [Run 0; Run 0; Run 0; Run 1; Run 1; Run 1; Run 0].

(** Where that schedule ends, before ([k] false) and after an interrupt
    has ended the process. *)
Definition asleep (k : bool) : state :=
  State true [] false None [0] [] k
        [Client (In_WaitForExit WFE_121_suspended) [] [];
         Client Idle [] [VUnit]].

(** A schedule with two interrupts: the client installs the
    bridge; the routine makes and registers its channel, starts its child
    and suspends in [WaitForExit]; the first interrupt arrives; the child
    receives it and runs [ExitWithoutError]; the second interrupt arrives
    before the routine has run again. *)
Definition two_interrupts : list label :=
  replicate 6 (Run 0) ++ replicate 6 (Run 1) ++
  [Interrupt; Run 2; Run 2; Run 2; Interrupt].

(** The schedule that leaves the handler installed for ever: the client
    installs the bridge; the routine makes and registers its channel,
    starts its child, and in [WaitForExit] locks and reads the flag
    (false); the interrupt arrives; the child receives it and runs all of
    [ExitWithoutError]; the routine then calls [exitCond.Wait()]. *)
Definition interrupt_absorbed : list label :=
  replicate 6 (Run 0) ++ replicate 5 (Run 1) ++
  [Interrupt; Run 2; Run 2; Run 2; Run 1].

(** Where that schedule ends, with the channel empty or ([b] true)
    holding a later interrupt that nobody receives. *)
Definition absorbing (b : bool) : state :=
  State true [] true None [1] [Chan b false true] false
        [Client Idle [] [VUnit];
         Bridge (WIR_85 0 WFE_121_suspended);
         Child CH_ret].

(** ** Tactics *)

Ltac unfold_steps :=
  unfold step_goroutine, step_client, within, waitForInterruptRoutine, child,
    WaitForExit, ExitOnInterrupt, ExitWithError, ExitWithoutError, ExitReason,
    Lock, Unlock, Broadcast, go, update_chan, receive, close,
    mbind, option_bind in *.

(** Case analysis on every test a step makes. *)
Ltac break_step :=
  repeat match goal with
  | H : context [match ?x with _ => _ end] |- _ =>
      let E := fresh "E" in destruct x eqn:E; simpl in H; try discriminate
  | H : Some _ = Some _ |- _ => inversion H; clear H; subst
  | H : (_, _) = (_, _) |- _ => inversion H; clear H; subst
  end.

(** Lookups in a channel list after an update or an allocation. *)
Ltac chan_lookup :=
  repeat match goal with
  | H : <[?c:=_]> _ !! ?i = Some _ |- _ =>
      destruct (decide (c = i)) as [->|?];
      [rewrite list_lookup_insert_eq in H by (eapply lookup_lt_Some; eassumption)
      |rewrite list_lookup_insert_ne in H by done]
  | H : (_ ++ [_]) !! _ = Some _ |- _ =>
      apply lookup_app_Some in H as [H|[_ H]];
      [|apply list_lookup_singleton_Some in H as [_ <-]]
  | H : Some _ = Some _ |- _ => inversion H; clear H; subst
  end.

Ltac spawned_cases g H :=
  destruct g as [[| | | | |[]|]| []|]; simpl; intros H;
  repeat (apply elem_of_cons in H as [->|H]); try done; by inversion H.

Ltac indep_nil :=
  exists []; simpl; rewrite ?app_nil_r;
  split; [done|]; split; [done|]; intros gs; simpl; rewrite ?app_nil_r;
  repeat match goal with E : _ = _ |- _ => rewrite E end; done.

Ltac indep_one :=
  eexists; split; [simpl; reflexivity|]; split; [done|]; intros gs; simpl;
  repeat match goal with E : _ = _ |- _ => rewrite E end; done.

Ltac indep_prep H :=
  unfold WaitForExit, ExitOnInterrupt, ExitWithError, ExitWithoutError,
    ExitReason, Lock, Unlock, Broadcast, go, mbind, option_bind in *;
  simpl in H; break_step.

(** * Properties *)

(** ** errors.Join *)

Lemma non_nil_elem (l : list error) (e : error) :
  e ∈ non_nil l ↔ e ∈ l ∧ e ≠ Nil.
Proof.
  induction l as [|x l IH]; simpl.
  - split; [intros H; inversion H | intros [H _]; inversion H].
  - destruct x; simpl; rewrite ?elem_of_cons, IH; split; intros;
      repeat match goal with
             | H : _ ∧ _ |- _ => destruct H
             | H : _ ∨ _ |- _ => destruct H
             end; subst; try congruence; auto.
Qed.

Lemma non_nil_sublist (l : list error) : non_nil l `sublist_of` l.
Proof.
  induction l as [|x l IH]; simpl; [constructor|].
  destruct (is_nil x); by constructor.
Qed.

Lemma non_nil_all_nil (l : list error) :
  non_nil l = [] ↔ Forall (λ e, e = Nil) l.
Proof.
  induction l as [|x l IH]; simpl; [split; auto|].
  destruct x; simpl; rewrite ?Forall_cons, ?IH; split; intros;
    try discriminate; intuition congruence.
Qed.


Lemma Join_Nil (l : list error) : Join l = Nil ↔ Forall (λ e, e = Nil) l.
Proof.
  rewrite <- non_nil_all_nil. unfold Join.
  destruct (non_nil l); simpl; split; intros; congruence.
Qed.

Lemma Join_joinError (l : list error) :
  non_nil l ≠ [] → Join l = joinError (non_nil l).
Proof. unfold Join. destruct (non_nil l); simpl; congruence. Qed.

(** ** One call at a time *)

Lemma ExitReason_run (t : tid) (s : state) :
  mutex s = None →
  run ExitReason t 5 ER_31 s = Some (s, reason_of (exitReasons s)).
Proof.
  destruct s as [f l h m w cs k gs]; simpl; intros ->.
  destruct l as [|e1 [|e2 l]]; reflexivity.
Qed.

Lemma ExitWithoutError_run (t : tid) (s : state) :
  run ExitWithoutError t 2 EWO_49 s =
  Some (set_exitCond [] (set_shouldExit true s), tt).
Proof. reflexivity. Qed.

Lemma ExitWithError_run (t : tid) (e : error) (s : state) :
  mutex s = None →
  run ExitWithError t 5 (EWE_56 e) s =
  Some (set_exitCond []
          (set_shouldExit true (set_exitReasons (exitReasons s ++ [e]) s)), tt).
Proof. destruct s; simpl; intros ->; reflexivity. Qed.

Lemma WaitForExit_run (t : tid) (s : state) :
  shouldExit s = true → mutex s = None →
  run WaitForExit t 8 WFE_119 s = Some (s, reason_of (exitReasons s)).
Proof.
  destruct s as [f l h m w cs k gs]; simpl; intros -> ->.
  destruct l as [|e1 [|e2 l]]; reflexivity.
Qed.

Lemma ExitOnInterrupt_run_first (t : tid) (s : state) :
  signalAlreadyHandled s = false → mutex s = None →
  run ExitOnInterrupt t 5 EOI_96 s =
  Some (set_signalAlreadyHandled true (go (Bridge WIR_72) s), tt).
Proof. destruct s; simpl; intros -> ->; reflexivity. Qed.

Lemma ExitOnInterrupt_run_again (t : tid) (s : state) :
  signalAlreadyHandled s = true → mutex s = None →
  run ExitOnInterrupt t 3 EOI_96 s = Some (s, tt).
Proof. destruct s; simpl; intros -> ->; reflexivity. Qed.

(** ** Steps of the interleaving *)

Lemma step_lock_effect t g s s' g' :
  step_goroutine t g s = Some (s', g') →
  (mutex s' = mutex s ∧ critical g' = critical g) ∨
  (mutex s = None ∧ mutex s' = Some t ∧ critical g = false ∧ critical g' = true) ∨
  (critical g = true ∧ mutex s' = None ∧ critical g' = false).
Proof.
  intros H. unfold_steps. simpl in H.
  break_step; simpl; try (destruct c; simpl); intuition congruence.
Qed.

Lemma step_kind t g s s' g' :
  step_goroutine t g s = Some (s', g') →
  is_bridge g' = is_bridge g ∧ goroutines s' = goroutines s ++ spawned g.
Proof.
  intros H. unfold_steps. simpl in H.
  break_step; simpl; rewrite ?app_nil_r; auto.
Qed.

Lemma step_Run t s s' :
  step (Run t) s = Some s' →
  ∃ g g' s1,
    killed s = false ∧ goroutines s !! t = Some g ∧
    step_goroutine t g s = Some (s1, g') ∧
    s' = set_goroutines (<[t:=g']> (goroutines s) ++ spawned g) s1.
Proof.
  unfold step. destruct (killed s); [done|].
  destruct (goroutines s !! t) as [g|] eqn:Hg; simpl; [|done].
  destruct (step_goroutine t g s) as [[s1 g']|] eqn:Hs; simpl; [|done].
  intros [= <-]. exists g, g', s1. repeat split; auto.
  destruct (step_kind _ _ _ _ _ Hs) as [_ ->].
  rewrite insert_app_l; [done|]. by eapply lookup_lt_Some.
Qed.

Lemma step_Interrupt s s' :
  step Interrupt s = Some s' → killed s = false ∧ s' = interrupt s.
Proof. unfold step. destruct (killed s); [done|]. by intros [= <-]. Qed.

Lemma lookup_after (gs new : list goroutine) t g g' t' x :
  gs !! t = Some g →
  (<[t:=g']> gs ++ new) !! t' = Some x →
  (t' = t ∧ x = g') ∨ (t' ≠ t ∧ gs !! t' = Some x) ∨ x ∈ new.
Proof.
  intros Hg Hx. apply lookup_lt_Some in Hg as Hlt.
  apply lookup_app_Some in Hx as [Hx | [_ Hx]].
  - destruct (decide (t' = t)) as [->|Hne].
    + rewrite list_lookup_insert_eq in Hx by done. left. split; congruence.
    + rewrite list_lookup_insert_ne in Hx by done. auto.
  - right; right. eapply list_elem_of_lookup_2; eauto.
Qed.

Lemma lookup_after_same (gs new : list goroutine) t g g' :
  gs !! t = Some g → (<[t:=g']> gs ++ new) !! t = Some g'.
Proof.
  intros Hg. apply lookup_lt_Some in Hg as Hlt.
  rewrite lookup_app_l by (by rewrite length_insert).
  by apply list_lookup_insert_eq.
Qed.

Lemma lookup_after_other (gs new : list goroutine) t g' t' x :
  t' ≠ t → gs !! t' = Some x → (<[t:=g']> gs ++ new) !! t' = Some x.
Proof.
  intros Hne Hx. apply lookup_lt_Some in Hx as Hlt.
  rewrite lookup_app_l by (by rewrite length_insert).
  by rewrite list_lookup_insert_ne.
Qed.

Lemma spawned_not_critical g x : x ∈ spawned g → critical x = false.
Proof. spawned_cases g H. Qed.

Lemma spawned_not_client g x :
  x ∈ spawned g → at_103 x = false ∧ at_104 x = false.
Proof. spawned_cases g H. Qed.

(** ** Counting the routines *)

Lemma count_app p gs1 gs2 : count p (gs1 ++ gs2) = count p gs1 + count p gs2.
Proof. induction gs1 as [|g gs1 IH]; simpl; [done|]. rewrite IH. lia. Qed.

Lemma count_insert p gs t g g' :
  gs !! t = Some g →
  count p (<[t:=g']> gs) + (if p g then 1 else 0) =
  count p gs + (if p g' then 1 else 0).
Proof.
  revert t. induction gs as [|x gs IH]; intros [|t] Hl; simpl in *; try done.
  - inversion Hl; subst. lia.
  - specialize (IH t Hl). lia.
Qed.

Lemma bridges_insert gs t g g' :
  gs !! t = Some g → is_bridge g' = is_bridge g →
  bridges (<[t:=g']> gs) = bridges gs.
Proof.
  intros Hl Hb. pose proof (count_insert is_bridge _ _ _ g' Hl) as H.
  rewrite Hb in H. lia.
Qed.

Lemma bridges_zero gs t g : bridges gs = 0 → gs !! t = Some g → is_bridge g = false.
Proof.
  revert t. induction gs as [|y gs IH]; intros [|t] Hz Hl; simpl in *; try done.
  - inversion Hl; subst. destruct (is_bridge g); [lia|done].
  - apply (IH t); [|done]. destruct (is_bridge y); lia.
Qed.

Lemma bridges_unique gs t1 t2 g1 g2 :
  bridges gs ≤ 1 → gs !! t1 = Some g1 → gs !! t2 = Some g2 →
  is_bridge g1 = true → is_bridge g2 = true → t1 = t2.
Proof.
  revert t1 t2. induction gs as [|x gs IH]; intros [|t1] [|t2] Hn H1 H2 B1 B2;
    simpl in *; try done.
  - inversion H1; subst. rewrite B1 in Hn.
    assert (Hz : bridges gs = 0) by lia.
    pose proof (bridges_zero _ _ _ Hz H2). congruence.
  - inversion H2; subst. rewrite B2 in Hn.
    assert (Hz : bridges gs = 0) by lia.
    pose proof (bridges_zero _ _ _ Hz H1). congruence.
  - f_equal. apply IH with (t1 := t1) (t2 := t2); auto.
    destruct (is_bridge x); lia.
Qed.

Lemma bridges_after gs t g g' :
  gs !! t = Some g → is_bridge g' = is_bridge g →
  bridges (<[t:=g']> gs ++ spawned g) =
  bridges gs + (if at_103 g then 1 else 0).
Proof.
  intros Hg Hk. rewrite count_app, (bridges_insert _ _ _ _ Hg Hk).
  f_equal. destruct g as [[| | | | |[]|]| []|]; reflexivity.
Qed.

(** ** The invariants hold in every reachable state *)

Lemma mutex_inv_step l s s' : step l s = Some s' → mutex_inv s → mutex_inv s'.
Proof.
  destruct l as [t|].
  - intros (g & g' & s1 & _ & Hg & Hs & ->)%step_Run Inv t' x Hx Hc. simpl in *.
    pose proof (step_lock_effect _ _ _ _ _ Hs) as Heff.
    destruct (lookup_after _ _ _ _ _ _ _ Hg Hx) as [[-> ->]|[[Hne Hx']|Hin]].
    + destruct Heff as [[E1 E2]|[(_ & E & _)|(_ & _ & E)]]; [|done|congruence].
      rewrite E1. apply (Inv _ _ Hg). congruence.
    + pose proof (Inv _ _ Hx' Hc) as Hm.
      destruct Heff as [[E _]|[(E & _)|(E & _)]]; [congruence|congruence|].
      pose proof (Inv _ _ Hg E). congruence.
    + apply spawned_not_critical in Hin. congruence.
  - intros [_ ->]%step_Interrupt Inv t g. simpl.
    unfold interrupt. destruct (existsb _ _); simpl; apply Inv.
Qed.

Lemma step_handled t g s s' g' :
  step_goroutine t g s = Some (s', g') →
  (at_103 g' = true →
     signalAlreadyHandled s = false ∧ critical g = true ∧
     at_103 g = false ∧ at_104 g = false) ∧
  (at_104 g' = true → at_103 g = true) ∧
  (at_103 g = true → at_104 g' = true) ∧
  (at_104 g = true → signalAlreadyHandled s' = true) ∧
  (at_104 g = false → signalAlreadyHandled s' = signalAlreadyHandled s).
Proof.
  intros H. unfold_steps. simpl in H.
  break_step; simpl; try (destruct c; simpl); intuition congruence.
Qed.

Lemma bridge_inv_step l s s' :
  step l s = Some s' → mutex_inv s → bridge_inv s → bridge_inv s'.
Proof.
  destruct l as [t|].
  - intros (g & g' & s1 & _ & Hg & Hs & ->)%step_Run Mx (B1 & B2 & B3 & B4 & B5).
    destruct (step_kind _ _ _ _ _ Hs) as [Hk _].
    destruct (step_handled _ _ _ _ _ Hs) as (F1 & F2 & F3 & F4 & F5).
    assert (Excl : ∀ t' x, goroutines s !! t' = Some x → critical x = true →
                           critical g = true → t' = t).
    { intros t' x Hx Cx Cg. pose proof (Mx _ _ Hx Cx). pose proof (Mx _ _ Hg Cg).
      congruence. }
    assert (C34 : ∀ x, at_103 x = true ∨ at_104 x = true → critical x = true).
    { intros [[| | | | |[]|]| |]; simpl; intuition congruence. }
    unfold bridge_inv. simpl. rewrite (bridges_after _ _ _ _ Hg Hk).
    split; [|split; [|split; [|split]]].
    + intros t' x Hx A.
      destruct (lookup_after _ _ _ _ _ _ _ Hg Hx) as [[-> ->]|[[Hne Hx']|Hin]].
      * destruct (F1 A) as (Hh & Cg & N3 & N4). rewrite (F5 N4), N3.
        split; [done|].
        destruct (B4 Hh) as [->|(t'' & y & Hy & Ay)]; [done|].
        assert (t'' = t) by (eapply Excl; eauto). subst t''. congruence.
      * destruct (B1 _ _ Hx' A) as [Hh Hz].
        destruct (at_104 g) eqn:A4.
        { exfalso. apply Hne. eapply Excl; eauto. }
        rewrite (F5 eq_refl). split; [done|].
        destruct (at_103 g) eqn:A3; [|lia].
        exfalso. apply Hne. eapply Excl; eauto.
      * apply spawned_not_client in Hin. intuition congruence.
    + intros t' x Hx A.
      destruct (lookup_after _ _ _ _ _ _ _ Hg Hx) as [[-> ->]|[[Hne Hx']|Hin]].
      * pose proof (F2 A) as A3. rewrite A3.
        destruct (B1 _ _ Hg A3) as [_ ->]. done.
      * rewrite (B2 _ _ Hx' A).
        destruct (at_103 g) eqn:A3; [|lia].
        exfalso. apply Hne. eapply Excl; eauto.
      * apply spawned_not_client in Hin. intuition congruence.
    + destruct (at_103 g) eqn:A3; [|lia]. destruct (B1 _ _ Hg A3) as [_ ->]. done.
    + intros Hh. destruct (at_104 g) eqn:A4.
      { rewrite (F4 eq_refl) in Hh. done. }
      rewrite (F5 eq_refl) in Hh.
      destruct (at_103 g) eqn:A3.
      * right. exists t, g'. split; [by eapply lookup_after_same|auto].
      * destruct (B4 Hh) as [->|(t'' & y & Hy & Ay)]; [by left|].
        right. exists t'', y. split; [|done].
        apply lookup_after_other; [|done]. intros ->. congruence.
    + intros Hh. destruct (at_104 g) eqn:A4.
      * rewrite (B2 _ _ Hg A4). by destruct g as [[| | | | |[]|]| |].
      * rewrite (F5 eq_refl) in Hh. rewrite (B5 Hh).
        destruct (at_103 g) eqn:A3; [|lia].
        destruct (B1 _ _ Hg A3) as [Hh' _]. congruence.
  - intros [_ ->]%step_Interrupt _ Inv.
    unfold interrupt. destruct (existsb _ _); simpl; apply Inv.
Qed.

Lemma step_notified t g s s' g' i ch' :
  step_goroutine t g s = Some (s', g') →
  chans s' !! i = Some ch' → notified ch' = true →
  listens g' i = true ∨
  (listens g i = false ∧ ∃ ch, chans s !! i = Some ch ∧ notified ch = true).
Proof.
  intros H Hc Hn. unfold_steps. simpl in H.
  break_step; simpl in *; chan_lookup; simpl in *;
    rewrite ?Nat.eqb_refl; try done; eauto;
    try (right; split; [try done; by apply Nat.eqb_neq|eauto]).
  all: destruct (c =? i); eauto.
Qed.

Lemma deliver_notified ch : notified (deliver ch) = notified ch.
Proof. unfold deliver. by destruct (notified ch) eqn:E. Qed.

Lemma notify_inv_step l s s' : step l s = Some s' → notify_inv s → notify_inv s'.
Proof.
  destruct l as [t|].
  - intros (g & g' & s1 & _ & Hg & Hs & ->)%step_Run Inv i ch' Hc Hn. simpl in *.
    destruct (step_notified _ _ _ _ _ _ _ Hs Hc Hn) as [L|(L & ch & Hch & Hnn)].
    + exists t, g'. split; [by eapply lookup_after_same|done].
    + destruct (Inv _ _ Hch Hnn) as (t' & x & Hx & Lx).
      exists t', x. split; [|done]. apply lookup_after_other; [|done].
      intros ->. congruence.
  - intros [_ ->]%step_Interrupt Inv i ch.
    unfold interrupt. destruct (existsb _ _); simpl; [|apply Inv].
    rewrite list_lookup_fmap. destruct (chans s !! i) as [ch0|] eqn:E; [|done].
    simpl. intros [= <-]. rewrite deliver_notified. by apply Inv.
Qed.

Lemma step_pending t g s s' g' :
  step_goroutine t g s = Some (s', g') →
  is_child g' = is_child g ∧
  (if pending g' then 1 else 0) + children (spawned g) =
  (if pending g then 1 else 0).
Proof.
  intros H. unfold_steps. simpl in H.
  break_step; simpl; try (destruct c; simpl); auto.
Qed.

Lemma child_inv_step l s s' : step l s = Some s' → child_inv s → child_inv s'.
Proof.
  destruct l as [t|].
  - intros (g & g' & s1 & _ & Hg & Hs & ->)%step_Run Inv.
    destruct (step_kind _ _ _ _ _ Hs) as [Hk _].
    destruct (step_pending _ _ _ _ _ Hs) as [Hc Hp].
    unfold child_inv in *. simpl. rewrite !count_app.
    pose proof (count_insert is_child _ _ _ g' Hg) as H1.
    pose proof (count_insert pending _ _ _ g' Hg) as H2.
    pose proof (count_insert is_bridge _ _ _ g' Hg) as H3.
    rewrite Hc in H1. rewrite Hk in H3.
    assert (count pending (spawned g) = bridges (spawned g))
      by (destruct g as [[| | | | |[]|]| []|]; reflexivity).
    lia.
  - intros [_ ->]%step_Interrupt Inv.
    unfold interrupt. destruct (existsb _ _); simpl; apply Inv.
Qed.

Lemma inv_init clients : inv (init clients).
Proof.
  assert (Hc : ∀ t g, goroutines (init clients) !! t = Some g →
                      ∃ todo, g = Client Idle todo []).
  { simpl. intros t g. rewrite list_lookup_fmap.
    destruct (clients !! t); simpl; [|done]. intros [= <-]. eauto. }
  assert (Hb : bridges (goroutines (init clients)) = 0).
  { clear Hc. simpl. induction clients as [|c cl IH]; [done|].
    rewrite fmap_cons. exact IH. }
  assert (Hp : ∀ p, p = is_child ∨ p = pending →
                    count p (goroutines (init clients)) = 0).
  { clear Hc Hb. simpl. intros p Hp. induction clients as [|c cl IH]; [done|].
    rewrite fmap_cons. simpl. destruct Hp as [-> | ->]; exact IH. }
  split; [|split; [split; [|split; [|split; [|split]]]|split]].
  - intros t g [todo ->]%Hc. done.
  - intros t g [todo ->]%Hc. done.
  - intros t g [todo ->]%Hc. done.
  - rewrite Hb. lia.
  - auto.
  - done.
  - intros i ch. simpl. done.
  - unfold child_inv. rewrite Hb, !Hp by auto. done.
Qed.

Lemma inv_step l s s' : step l s = Some s' → inv s → inv s'.
Proof.
  intros H (M & B & N & C).
  split; [|split; [|split]];
    eauto using mutex_inv_step, bridge_inv_step, notify_inv_step, child_inv_step.
Qed.

Lemma inv_exec trace s s' : exec trace s = Some s' → inv s → inv s'.
Proof.
  revert s. induction trace as [|l trace IH]; simpl; intros s.
  - by intros [= <-].
  - destruct (step l s) as [s1|] eqn:E; simpl; [|done].
    intros H I. eapply IH; eauto using inv_step.
Qed.

Lemma inv_reachable s : reachable s → inv s.
Proof. intros (cl & tr & H). eapply inv_exec; eauto using inv_init. Qed.

Lemma exec_app tr1 tr2 s s1 s2 :
  exec tr1 s = Some s1 → exec tr2 s1 = Some s2 → exec (tr1 ++ tr2) s = Some s2.
Proof.
  revert s. induction tr1 as [|l tr1 IH]; simpl; intros s.
  - by intros [= ->].
  - destruct (step l s) as [s'|]; simpl; [|done]. apply IH.
Qed.

Lemma reachable_exec trace s s' :
  reachable s → exec trace s = Some s' → reachable s'.
Proof.
  intros (cl & tr & H) H'. exists cl, (tr ++ trace). by eapply exec_app.
Qed.

(** ** What a step can change *)

Lemma step_goroutine_frame t g s s' g' :
  step_goroutine t g s = Some (s', g') →
  (shouldExit s = true → shouldExit s' = true) ∧
  (signalAlreadyHandled s = true → signalAlreadyHandled s' = true) ∧
  (exitReasons s' = exitReasons s ∨ ∃ e, exitReasons s' = exitReasons s ++ [e]) ∧
  killed s' = killed s.
Proof.
  intros H. unfold_steps. simpl in H.
  break_step; simpl; repeat split; eauto.
Qed.

Lemma step_frame l s s' :
  step l s = Some s' →
  (shouldExit s = true → shouldExit s' = true) ∧
  (signalAlreadyHandled s = true → signalAlreadyHandled s' = true) ∧
  (exitReasons s' = exitReasons s ∨ ∃ e, exitReasons s' = exitReasons s ++ [e]).
Proof.
  destruct l as [t|].
  - intros (g & g' & s1 & _ & Hg & Hs & ->)%step_Run. simpl.
    destruct (step_goroutine_frame _ _ _ _ _ Hs) as (? & ? & ? & _). auto.
  - intros [_ ->]%step_Interrupt.
    unfold interrupt. destruct (existsb _ _); simpl; auto.
Qed.

Lemma exec_frame trace s s' :
  exec trace s = Some s' →
  (shouldExit s = true → shouldExit s' = true) ∧
  (signalAlreadyHandled s = true → signalAlreadyHandled s' = true) ∧
  (∃ more, exitReasons s' = exitReasons s ++ more).
Proof.
  revert s. induction trace as [|l trace IH]; simpl; intros s.
  - intros [= <-]. repeat split; auto. exists []. by rewrite app_nil_r.
  - destruct (step l s) as [s1|] eqn:E; simpl; [|done]. intros H.
    destruct (step_frame _ _ _ E) as (F1 & F2 & F3).
    destruct (IH _ H) as (G1 & G2 & more & G3).
    repeat split; auto. rewrite G3.
    destruct F3 as [-> | [e ->]]; [eauto|].
    exists ([e] ++ more). by rewrite app_assoc.
Qed.

(** Calls other than [ExitWithError], made one after the other once exit
    has been signalled, leave the reason log, the flag and the mutex as
    they are. *)
Lemma calls_run_frame t cs s s' vs :
  forallb (λ c, negb (is_ExitWithError c)) cs = true →
  shouldExit s = true → mutex s = None →
  calls_run t cs s = Some (s', vs) →
  shouldExit s' = true ∧ mutex s' = None ∧ exitReasons s' = exitReasons s.
Proof.
  revert s vs. induction cs as [|c cs IH]; simpl; intros s vs Hcs Hf Hm.
  - by intros [= <- <-].
  - apply andb_prop in Hcs as [Hc Hcs].
    destruct (call_run t c s) as [[s1 v]|] eqn:E; simpl; [|done].
    destruct (calls_run t cs s1) as [[s2 vs']|] eqn:E'; simpl; [|done].
    intros [= <- <-].
    assert (shouldExit s1 = true ∧ mutex s1 = None ∧
            exitReasons s1 = exitReasons s) as (Hf1 & Hm1 & Hr1).
    { destruct c; simpl in Hc; try done; unfold call_run in E.
      - by inversion E; subst.
      - rewrite ExitReason_run in E by done. by inversion E; subst.
      - rewrite ExitWithoutError_run in E. by inversion E; subst.
      - destruct (signalAlreadyHandled s) eqn:Hh.
        + destruct s; simpl in *; subst. by inversion E; subst.
        + destruct s; simpl in *; subst. by inversion E; subst.
      - rewrite WaitForExit_run in E by done. by inversion E; subst. }
    destruct (IH _ _ Hcs Hf1 Hm1 E') as (? & ? & ?). repeat split; congruence.
Qed.

(** ** Calls run alone are executions of the interleaving *)

Lemma indep_ExitReason : indep ExitReason.
Proof.
  intros t p s s' o H. indep_prep H. all: solve [indep_nil | indep_one].
Qed.

Lemma indep_ExitWithoutError : indep ExitWithoutError.
Proof.
  intros t p s s' o H. indep_prep H. all: solve [indep_nil | indep_one].
Qed.

Lemma indep_ExitWithError : indep ExitWithError.
Proof.
  intros t p s s' o H. indep_prep H. all: solve [indep_nil | indep_one].
Qed.

Lemma indep_ExitOnInterrupt : indep ExitOnInterrupt.
Proof.
  intros t p s s' o H. indep_prep H. all: solve [indep_nil | indep_one].
Qed.

Lemma indep_WaitForExit : indep WaitForExit.
Proof.
  intros t p s s' o H. indep_prep H. all: solve [indep_nil | indep_one].
Qed.

(** A function [f] whose program points [inj] embeds in a client. *)
Section solo.
Context {PC R : Type} (f : step_of PC R).
Context (inj : PC → client_pc) (val : R → value).
Hypothesis f_indep : indep f.
Hypothesis f_client :
  ∀ t p todo rets s,
    step_client t (inj p) todo rets s =
    within (f t p s) (λ p', Client (inj p') todo rets)
           (λ r, Client Idle todo (rets ++ [val r])).

Lemma run_indep fuel t p s s' r :
  run f t fuel p s = Some (s', r) →
  ∃ new,
    goroutines s' = goroutines s ++ new ∧ killed s' = killed s ∧
    ∀ gs, run f t fuel p (set_goroutines gs s) =
          Some (set_goroutines (gs ++ new) s', r).
Proof.
  revert t p s s' r.
  induction fuel as [|fuel IH]; intros t p s s' r Hrun; [done|].
  cbn [run] in Hrun.
  destruct (f t p s) as [[s1 o]|] eqn:E; cbn [mbind option_bind] in Hrun;
    [|done].
  destruct (f_indep _ _ _ _ _ E) as (new1 & Hg1 & Hk1 & H1).
  destruct o as [p'|r'].
  - destruct (IH _ _ _ _ _ Hrun) as (new2 & Hg2 & Hk2 & H2).
    exists (new1 ++ new2). rewrite Hg2, Hg1, app_assoc.
    split; [done|]. split; [congruence|]. intros gs.
    cbn [run]. rewrite H1. cbn [mbind option_bind].
    specialize (H2 (gs ++ new1)). rewrite <- app_assoc in H2. exact H2.
  - injection Hrun as <- <-. exists new1. split; [done|]. split; [done|].
    intros gs. cbn [run]. by rewrite H1.
Qed.

Lemma run_exec fuel t p s s' r todo rets :
  killed s = false →
  goroutines s !! t = Some (Client (inj p) todo rets) →
  run f t fuel p s = Some (s', r) →
  ∃ n, exec (replicate n (Run t)) s =
         Some (set_goroutines
                 (<[t := Client Idle todo (rets ++ [val r])]> (goroutines s'))
                 s').
Proof.
  revert t p s s' r todo rets.
  induction fuel as [|fuel IH]; intros t p s s' r todo rets Hk Hg Hrun;
    [done|].
  cbn [run] in Hrun.
  destruct (f t p s) as [[s1 o]|] eqn:E; cbn [mbind option_bind] in Hrun;
    [|done].
  destruct (f_indep _ _ _ _ _ E) as (new1 & Hg1 & Hk1 & _).
  assert (Hstep : step (Run t) s =
            Some (set_goroutines
                    (<[t := match o with
                            | inl p' => Client (inj p') todo rets
                            | inr r => Client Idle todo (rets ++ [val r])
                            end]> (goroutines s1)) s1)).
  { unfold step. rewrite Hk, Hg. cbn [mbind option_bind step_goroutine].
    rewrite f_client, E. reflexivity. }
  apply lookup_lt_Some in Hg as Hlt.
  destruct o as [p'|r'].
  - destruct (run_indep _ _ _ _ _ _ Hrun) as (new2 & Hg2 & Hk2 & H2).
    set (c := Client (inj p') todo rets) in *.
    specialize (H2 (<[t:=c]> (goroutines s1))).
    assert (Hlt1 : t < length (goroutines s1)).
    { rewrite Hg1, length_app. lia. }
    assert (Hk' : killed (set_goroutines (<[t:=c]> (goroutines s1)) s1)
                  = false)
      by (simpl; congruence).
    assert (Hg' : goroutines (set_goroutines (<[t:=c]> (goroutines s1)) s1)
                    !! t = Some c)
      by (simpl; by apply list_lookup_insert_eq).
    destruct (IH _ _ _ _ _ _ _ Hk' Hg' H2) as [n Hn].
    exists (S n). cbn [replicate exec]. rewrite Hstep. cbn [mbind option_bind].
    rewrite Hn. f_equal. simpl. rewrite Hg2.
    rewrite !insert_app_l by (by rewrite ?length_insert).
    by rewrite list_insert_insert_eq.
  - injection Hrun as <- <-. exists 1. cbn [replicate exec]. by rewrite Hstep.
Qed.
End solo.

(** A client that is scheduled alone for a whole call does what [call_run]
    says: some number of its steps takes the interleaving from [s] to the
    state [call_run] computes, with the call removed from the client's list
    and the returned value added to what it has collected. *)
Theorem call_run_exec (t : tid) (c : call) (todo : list call)
    (rets : list value) (s s' : state) (v : value) :
  killed s = false →
  goroutines s !! t = Some (Client Idle (c :: todo) rets) →
  call_run t c s = Some (s', v) →
  ∃ n, exec (replicate n (Run t)) s =
         Some (set_goroutines
                 (<[t := Client Idle todo (rets ++ [v])]> (goroutines s')) s').
Proof.
  intros Hk Hg Hrun. apply lookup_lt_Some in Hg as Hlt.
  set (s0 := set_goroutines (<[t := Client (entry c) todo rets]> (goroutines s)) s).
  assert (Hstep : step (Run t) s = Some s0).
  { unfold step. rewrite Hk, Hg. reflexivity. }
  assert (Hk0 : killed s0 = false) by done.
  assert (Hg0 : goroutines s0 !! t = Some (Client (entry c) todo rets)).
  { simpl. by apply list_lookup_insert_eq. }
  assert (Hs0 : s0 = set_goroutines
                       (<[t := Client (entry c) todo rets]> (goroutines s)) s)
    by done.
  assert (Hfin : ∀ s1 n,
            exec (replicate n (Run t)) s0 = Some s1 →
            exec (replicate (S n) (Run t)) s = Some s1).
  { intros s1 n H. cbn [replicate exec]. by rewrite Hstep. }
  assert (Hins : ∀ (gs new : list goroutine) a b,
            t < length gs →
            <[t:=a]> (<[t:=b]> gs ++ new) = <[t:=a]> (gs ++ new)).
  { intros gs new a b Hl.
    rewrite !insert_app_l by (by rewrite ?length_insert).
    by rewrite list_insert_insert_eq. }
  clearbody s0.
  destruct c; unfold call_run in Hrun; cbn [entry] in Hg0.
  - injection Hrun as <- <-. exists 2. apply Hfin. cbn [replicate exec].
    unfold step. rewrite Hk0, Hg0. simpl. rewrite Hs0. simpl.
    by rewrite list_insert_insert_eq.
  - destruct (run ExitReason t 5 ER_31 s) as [[s1 r]|] eqn:E; [|done].
    injection Hrun as <- <-.
    destruct (run_indep _ indep_ExitReason _ _ _ _ _ _ E) as (new & Hn & _ & H).
    specialize (H (<[t := Client (entry CExitReason) todo rets]> (goroutines s))).
    rewrite <- Hs0 in H.
    destruct (run_exec ExitReason In_ExitReason VError indep_ExitReason
                ltac:(done) _ _ _ _ _ _ _ _ Hk0 Hg0 H) as [n Hx].
    exists (S n). apply Hfin. rewrite Hx. f_equal. simpl.
    rewrite Hn. by rewrite Hins.
  - destruct (run ExitWithoutError t 2 EWO_49 s) as [[s1 r]|] eqn:E; [|done].
    injection Hrun as <- <-.
    destruct (run_indep _ indep_ExitWithoutError _ _ _ _ _ _ E) as (new & Hn & _ & H).
    specialize (H (<[t := Client (entry CExitWithoutError) todo rets]> (goroutines s))).
    rewrite <- Hs0 in H.
    destruct (run_exec ExitWithoutError In_ExitWithoutError (λ _, VUnit) indep_ExitWithoutError
                ltac:(done) _ _ _ _ _ _ _ _ Hk0 Hg0 H) as [n Hx].
    exists (S n). apply Hfin. rewrite Hx. f_equal. simpl.
    rewrite Hn. by rewrite Hins.
  - destruct (run ExitWithError t 5 (EWE_56 e) s) as [[s1 r]|] eqn:E; [|done].
    injection Hrun as <- <-.
    destruct (run_indep _ indep_ExitWithError _ _ _ _ _ _ E) as (new & Hn & _ & H).
    specialize (H (<[t := Client (entry (CExitWithError e)) todo rets]> (goroutines s))).
    rewrite <- Hs0 in H.
    destruct (run_exec ExitWithError In_ExitWithError (λ _, VUnit) indep_ExitWithError
                ltac:(done) _ _ _ _ _ _ _ _ Hk0 Hg0 H) as [n Hx].
    exists (S n). apply Hfin. rewrite Hx. f_equal. simpl.
    rewrite Hn. by rewrite Hins.
  - destruct (run ExitOnInterrupt t 5 EOI_96 s) as [[s1 r]|] eqn:E; [|done].
    injection Hrun as <- <-.
    destruct (run_indep _ indep_ExitOnInterrupt _ _ _ _ _ _ E) as (new & Hn & _ & H).
    specialize (H (<[t := Client (entry CExitOnInterrupt) todo rets]> (goroutines s))).
    rewrite <- Hs0 in H.
    destruct (run_exec ExitOnInterrupt In_ExitOnInterrupt (λ _, VUnit) indep_ExitOnInterrupt
                ltac:(done) _ _ _ _ _ _ _ _ Hk0 Hg0 H) as [n Hx].
    exists (S n). apply Hfin. rewrite Hx. f_equal. simpl.
    rewrite Hn. by rewrite Hins.
  - destruct (run WaitForExit t 8 WFE_119 s) as [[s1 r]|] eqn:E; [|done].
    injection Hrun as <- <-.
    destruct (run_indep _ indep_WaitForExit _ _ _ _ _ _ E) as (new & Hn & _ & H).
    specialize (H (<[t := Client (entry CWaitForExit) todo rets]> (goroutines s))).
    rewrite <- Hs0 in H.
    destruct (run_exec WaitForExit In_WaitForExit VError indep_WaitForExit
                ltac:(done) _ _ _ _ _ _ _ _ Hk0 Hg0 H) as [n Hx].
    exists (S n). apply Hfin. rewrite Hx. f_equal. simpl.
    rewrite Hn. by rewrite Hins.
Qed.

(** * The claims *)

(** ** ExitReason *)

(** C2, as stated, fails: with two nil entries in the reason log (after
    [ExitWithError(nil)] twice) [ExitReason] takes the [errors.Join] branch
    and returns nil, which is no composite value and reports no entry. *)
Lemma C2_counterexample :
  ¬ (∀ (t : tid) (s s' : state) (r : error),
       mutex s = None → 2 ≤ length (exitReasons s) →
       run ExitReason t 5 ER_31 s = Some (s', r) →
       ∃ errs, r = joinError errs ∧ ∀ e, e ∈ exitReasons s → e ∈ errs).
Proof.
  intros H.
  destruct (H 0 (State true [Nil; Nil] false None [] [] false []) _ Nil
              eq_refl (le_n 2) eq_refl) as (errs & Hr & _).
  discriminate Hr.
Qed.

(** C2, amended: called with the mutex free, [ExitReason] returns and
    leaves the state as it was; the result is nil for an empty log, the
    entry itself for a log of one entry, and for a longer log
    [errors.Join] of the log: nil when every entry is nil, otherwise a
    [joinError] that wraps exactly the non-nil entries, in log order. *)
Theorem C2_ExitReason_result (t : tid) (s : state) :
  mutex s = None →
  ∃ r, run ExitReason t 5 ER_31 s = Some (s, r) ∧
       (exitReasons s = [] → r = Nil) ∧
       (∀ e, exitReasons s = [e] → r = e) ∧
       (2 ≤ length (exitReasons s) →
          (Forall (λ e, e = Nil) (exitReasons s) → r = Nil) ∧
          (¬ Forall (λ e, e = Nil) (exitReasons s) →
             r = joinError (non_nil (exitReasons s))) ∧
          (∀ e, e ∈ Unwrap r ↔ e ∈ exitReasons s ∧ e ≠ Nil) ∧
          Unwrap r `sublist_of` exitReasons s).
Proof.
  intros Hm. exists (reason_of (exitReasons s)).
  split; [by apply ExitReason_run|].
  destruct (exitReasons s) as [|e1 [|e2 l]] eqn:El; simpl.
  - split; [done|]. split; [done|]. intros Hlen; simpl in Hlen; lia.
  - split; [done|]. split; [by intros e [= ->]|].
    intros Hlen; simpl in Hlen; lia.
  - split; [done|]. split; [done|]. intros _.
    set (log := e1 :: e2 :: l).
    assert (Hcases : (Forall (λ e, e = Nil) log ∧ Join log = Nil) ∨
                     (¬ Forall (λ e, e = Nil) log ∧
                      Join log = joinError (non_nil log))).
    { destruct (non_nil log) as [|x k] eqn:En.
      - left. split; [by apply non_nil_all_nil|].
        apply Join_Nil. by apply non_nil_all_nil.
      - right. split.
        + rewrite <- non_nil_all_nil, En. done.
        + rewrite <- En. apply Join_joinError. rewrite En. done. }
    destruct Hcases as [[Hall ->]|[Hsome ->]]; cbn [Unwrap].
    + split; [done|]. split; [done|]. split; [|apply sublist_nil_l].
      intros e. split; [intros He; inversion He|].
      intros [He Hn]. exfalso. apply Hn.
      rewrite Forall_forall in Hall. by apply Hall.
    + split; [done|]. split; [done|]. split; [|apply non_nil_sublist].
      intros e. apply non_nil_elem.
Qed.

Lemma C2_ExitReason_result_witness :
  ∃ r, run ExitReason 0 5 ER_31
           (State true [ErrNew 1 "a"; Nil; ErrNew 2 "b"] false None [] [] false [])
       = Some (State true [ErrNew 1 "a"; Nil; ErrNew 2 "b"] false None [] [] false [],
               r) ∧
       Unwrap r = [ErrNew 1 "a"; ErrNew 2 "b"].
Proof.
  destruct (C2_ExitReason_result 0
              (State true [ErrNew 1 "a"; Nil; ErrNew 2 "b"] false None [] [] false [])
              eq_refl) as (r & Hrun & _ & _ & Hjoin).
  exists r. split; [exact Hrun|].
  destruct (Hjoin (le_S _ _ (le_n 2))) as (_ & Hr & _).
  rewrite Hr; [reflexivity|].
  intros Hall. apply Forall_cons in Hall as [Hx _]. discriminate Hx.
Defined.

(** C10: [ExitReason] only reads.  No step of it, at any program point and
    in any state, changes the reason log, the exit flag or anything else
    but the mutex it takes and gives back; a whole call made with the
    mutex free returns in the state it started in, whether or not exit has
    been signalled; and with an empty log it returns nil, whatever the exit
    flag is. *)
Theorem C10_ExitReason_read_only :
  (∀ (t : tid) pc s s' o,
     ExitReason t pc s = Some (s', o) →
     exitReasons s' = exitReasons s ∧ shouldExit s' = shouldExit s ∧
     signalAlreadyHandled s' = signalAlreadyHandled s ∧
     exitCond s' = exitCond s ∧ chans s' = chans s ∧
     killed s' = killed s ∧ goroutines s' = goroutines s) ∧
  (∀ (t : tid) s,
     mutex s = None →
     run ExitReason t 5 ER_31 s = Some (s, reason_of (exitReasons s))) ∧
  (∀ (t : tid) s,
     mutex s = None → exitReasons s = [] →
     run ExitReason t 5 ER_31 s = Some (s, Nil)).
Proof.
  split; [|split].
  - intros t pc s s' o H. unfold ExitReason, Lock, Unlock, mbind, option_bind in H.
    destruct pc; break_step; simpl; done.
  - apply ExitReason_run.
  - intros t s Hm Hl. rewrite ExitReason_run by done. by rewrite Hl.
Qed.

Lemma C10_ExitReason_read_only_witness :
  exitReasons (State true [ErrNew 1 "a"] false (Some 3) [] [] false []) =
    [ErrNew 1 "a"] ∧
  run ExitReason 3 5 ER_31 (State true [ErrNew 1 "a"] false None [] [] false []) =
    Some (State true [ErrNew 1 "a"] false None [] [] false [], ErrNew 1 "a") ∧
  run ExitReason 3 5 ER_31 (State false [] false None [] [] false []) =
    Some (State false [] false None [] [] false [], Nil) ∧
  run ExitReason 3 5 ER_31 (State true [] true None [] [] false []) =
    Some (State true [] true None [] [] false [], Nil).
Proof.
  destruct C10_ExitReason_read_only as (H1 & H2 & H3).
  split; [|split; [|split]].
  - apply (H1 3 ER_31 (State true [ErrNew 1 "a"] false None [] [] false [])
              (State true [ErrNew 1 "a"] false (Some 3) [] [] false [])
              (inl ER_32) eq_refl).
  - apply (H2 3 (State true [ErrNew 1 "a"] false None [] [] false []) eq_refl).
  - apply (H3 3 (State false [] false None [] [] false [])); reflexivity.
  - apply (H3 3 (State true [] true None [] [] false [])); reflexivity.
Defined.

(** ** ExitWithError and ExitWithoutError *)





(** C5: [ExitWithoutError] never changes the reason log: each of its two
    steps, and so the whole call, leaves [exitReasons] as it is in every
    state, exit flag set or not; a call made after [ExitWithError(e)]
    leaves what [WaitForExit] returns unchanged, so after
    [ExitWithError("disk full")] and [ExitWithoutError()] on an empty log
    [WaitForExit] returns the "disk full" error itself. *)
Theorem C5_ExitWithoutError_keeps_reasons :
  (∀ (t : tid) pc s,
     ∃ s' o, ExitWithoutError t pc s = Some (s', o) ∧
             exitReasons s' = exitReasons s) ∧
  (∀ (t : tid) s,
     ∃ s', run ExitWithoutError t 2 EWO_49 s = Some (s', tt) ∧
           exitReasons s' = exitReasons s ∧ shouldExit s' = true) ∧
  (∀ (t : tid) s e,
     mutex s = None →
     ∃ s1 s2 r,
       call_run t (CExitWithError e) s = Some (s1, VUnit) ∧
       call_run t CWaitForExit s1 = Some (s1, VError r) ∧
       call_run t CExitWithoutError s1 = Some (s2, VUnit) ∧
       call_run t CWaitForExit s2 = Some (s2, VError r) ∧
       (exitReasons s = [] → r = e)).
Proof.
  split; [|split].
  - intros t pc s. destruct pc; simpl; eauto.
  - intros t s. eexists. split; [apply ExitWithoutError_run|]. done.
  - intros t s e Hm.
    set (s1 := set_exitCond []
                 (set_shouldExit true
                    (set_exitReasons (exitReasons s ++ [e]) s))).
    exists s1, (set_exitCond [] (set_shouldExit true s1)),
      (reason_of (exitReasons s ++ [e])).
    unfold call_run.
    rewrite ExitWithError_run, ExitWithoutError_run by done.
    rewrite !WaitForExit_run by (simpl; done).
    repeat split. by intros ->.
Qed.

Lemma C5_ExitWithoutError_keeps_reasons_witness :
  calls_run 0 [CExitWithError (ErrNew 1 "disk full"); CExitWithoutError;
               CWaitForExit] (init []) =
    Some (State true [ErrNew 1 "disk full"] false None [] [] false [],
          [VUnit; VUnit; VError (ErrNew 1 "disk full")]).
Proof.
  destruct C5_ExitWithoutError_keeps_reasons as (_ & _ & H).
  destruct (H 0 (init []) (ErrNew 1 "disk full") eq_refl)
    as (s1 & s2 & r & H1 & _ & H2 & H3 & Hr).
  specialize (Hr eq_refl). subst r.
  cbn [calls_run]. rewrite H1. cbn [mbind option_bind].
  rewrite H2. cbn [mbind option_bind]. rewrite H3. cbn [mbind option_bind].
  vm_compute in H1. injection H1 as <-.
  vm_compute in H2. injection H2 as <-.
  reflexivity.
Defined.

(** C9: when the reason log is empty and the only call that signals exit
    is [ExitWithError(nil)], the log holds the one nil entry, and
    [WaitForExit], [ExitReason] and [ShouldExit] return what they return
    after [ExitWithoutError()] instead: nil, nil and true. *)
Theorem C9_nil_reason (t : tid) (s : state) :
  mutex s = None → exitReasons s = [] →
  ∃ s1 s2,
    call_run t (CExitWithError Nil) s = Some (s1, VUnit) ∧
    call_run t CExitWithoutError s = Some (s2, VUnit) ∧
    exitReasons s1 = [Nil] ∧ exitReasons s2 = [] ∧
    call_run t CWaitForExit s1 = Some (s1, VError Nil) ∧
    call_run t CWaitForExit s2 = Some (s2, VError Nil) ∧
    call_run t CExitReason s1 = Some (s1, VError Nil) ∧
    call_run t CExitReason s2 = Some (s2, VError Nil) ∧
    ShouldExit s1 = true ∧ ShouldExit s2 = true.
Proof.
  intros Hm Hl.
  exists (set_exitCond []
            (set_shouldExit true (set_exitReasons (exitReasons s ++ [Nil]) s))),
    (set_exitCond [] (set_shouldExit true s)).
  unfold call_run.
  rewrite ExitWithError_run, ExitWithoutError_run by done.
  rewrite !WaitForExit_run, !ExitReason_run by (simpl; done).
  simpl. rewrite Hl. repeat split.
Qed.

Lemma C9_nil_reason_witness :
  ∃ s1 s2,
    call_run 0 (CExitWithError Nil) (init []) = Some (s1, VUnit) ∧
    call_run 0 CExitWithoutError (init []) = Some (s2, VUnit) ∧
    exitReasons s1 = [Nil] ∧ exitReasons s2 = [] ∧
    call_run 0 CWaitForExit s1 = Some (s1, VError Nil) ∧
    call_run 0 CWaitForExit s2 = Some (s2, VError Nil) ∧
    call_run 0 CExitReason s1 = Some (s1, VError Nil) ∧
    call_run 0 CExitReason s2 = Some (s2, VError Nil) ∧
    ShouldExit s1 = true ∧ ShouldExit s2 = true.
Proof. apply (C9_nil_reason 0 (init [])); reflexivity. Defined.


(** ** The exit flag *)

Lemma polls_app (r1 r2 : list value) : polls (r1 ++ r2) = polls r1 ++ polls r2.
Proof.
  induction r1 as [|v r1 IH]; simpl; [done|].
  destruct v; simpl; by rewrite IH.
Qed.

Lemma settled_snoc (bs : list bool) (b : bool) :
  settled bs → (true ∈ bs → b = true) → settled (bs ++ [b]).
Proof.
  intros Hs Hb i j b' Hij Hi Hj.
  apply lookup_app_Some in Hj as [Hj|[Hlen Hj]].
  - apply lookup_lt_Some in Hj as Hlt.
    rewrite lookup_app_l in Hi by lia. eauto.
  - apply list_lookup_singleton_Some in Hj as [_ <-].
    apply lookup_app_Some in Hi as [Hi|[_ Hi]].
    + apply Hb. eapply list_elem_of_lookup_2; eauto.
    + by apply list_lookup_singleton_Some in Hi as [_ <-].
Qed.

Lemma step_polls t g s s' pc' todo' rets' :
  step_goroutine t g s = Some (s', Client pc' todo' rets') →
  ∃ pc todo rets,
    g = Client pc todo rets ∧
    (polls rets' = polls rets ∨ polls rets' = polls rets ++ [shouldExit s]).
Proof.
  intros H. unfold_steps. simpl in H.
  break_step; simpl; do 3 eexists; (split; [reflexivity|]);
    rewrite ?polls_app; simpl; rewrite ?app_nil_r; auto.
Qed.

Lemma poll_inv_step l s s' : step l s = Some s' → poll_inv s → poll_inv s'.
Proof.
  destruct l as [t|].
  - intros (g & g' & s1 & _ & Hg & Hs & ->)%step_Run Inv t' pc' todo' rets' Hx.
    simpl in *.
    destruct (step_goroutine_frame _ _ _ _ _ Hs) as (Hf & _).
    destruct (lookup_after _ _ _ _ _ _ _ Hg Hx) as [[-> Heq]|[[Hne Hx']|Hin]].
    + subst g'.
      destruct (step_polls _ _ _ _ _ _ _ Hs) as (pc & todo & rets & -> & Hp).
      destruct (Inv _ _ _ _ Hg) as [Hset Hseen].
      destruct Hp as [-> | ->]; [by auto|].
      split.
      * apply settled_snoc; [done|]. auto.
      * intros [Hin | Hin]%elem_of_app; [by auto|].
        apply list_elem_of_singleton in Hin. apply Hf. done.
    + destruct (Inv _ _ _ _ Hx') as [Hset Hseen]. auto.
    + exfalso. clear -Hin. destruct g as [[| | | | |[]|]| []|]; simpl in Hin;
        repeat (apply elem_of_cons in Hin as [Hin|Hin]); try done;
        by inversion Hin.
  - intros [_ ->]%step_Interrupt Inv.
    unfold interrupt. destruct (existsb _ _); simpl; apply Inv.
Qed.

Lemma poll_inv_reachable s : reachable s → poll_inv s.
Proof.
  intros (cl & tr & H).
  assert (Hinit : poll_inv (init cl)).
  { intros t pc todo rets. simpl. rewrite list_lookup_fmap.
    destruct (cl !! t); simpl; [|done]. intros [= <- <- <-]. simpl.
    split; [by intros i j b _ Hi|]. intros Hin. inversion Hin. }
  clear -H Hinit. revert H Hinit. generalize (init cl). clear cl.
  induction tr as [|l tr IH]; simpl; intros s0.
  - by intros [= <-].
  - destruct (step l s0) as [s1|] eqn:E; simpl; [|done].
    intros H I. eapply IH; eauto using poll_inv_step.
Qed.

Lemma flags_stay trace s b :
  shouldExit s = true → b ∈ flags trace s → b = true.
Proof.
  revert s. induction trace as [|l trace IH]; intros s Hf; simpl.
  - intros ->%list_elem_of_singleton. done.
  - intros [->|Hin]%elem_of_cons; [done|].
    destruct (step l s) as [s'|] eqn:E; [|by inversion Hin].
    destruct (step_frame _ _ _ E) as (F & _). eauto.
Qed.

Lemma flags_settled trace s : settled (flags trace s).
Proof.
  revert s. induction trace as [|l trace IH]; intros s i j b Hij Hi Hj.
  - destruct i, j; simpl in *; try done. congruence.
  - destruct i as [|i].
    + simpl in Hi. injection Hi as Hf.
      eapply (flags_stay (l :: trace) s); [done|].
      eapply list_elem_of_lookup_2. exact Hj.
    + destruct j as [|j]; [lia|]. simpl in Hi, Hj.
      destruct (step l s) as [s'|]; [|done].
      eapply (IH s' i j); [lia|done|done].
Qed.

(** C4: the exit flag never goes back.  From any state in which
    [ShouldExit] returns true, whatever the goroutines do next (any calls
    of [ShouldExit], [ExitReason], [ExitWithoutError], [ExitWithError],
    [ExitOnInterrupt] and [WaitForExit], in any interleaving, with
    interrupts) it returns true in every later state; along every
    execution the flag is false up to some point and true from then on, so
    it changes from false to true at most once; and the values
    [ShouldExit] has returned to a goroutine never show false after
    true. *)
Theorem C4_flag_monotonic :
  (∀ (trace : list label) (s s' : state),
     ShouldExit s = true → exec trace s = Some s' → ShouldExit s' = true) ∧
  (∀ (trace : list label) (s : state), settled (flags trace s)) ∧
  (∀ (s : state) (t : tid) pc todo rets,
     reachable s → goroutines s !! t = Some (Client pc todo rets) →
     settled (polls rets)).
Proof.
  split; [|split].
  - intros trace s s' Hf H. by destruct (exec_frame _ _ _ H) as (F & _); auto.
  - apply flags_settled.
  - intros s t pc todo rets Hr Hg.
    by destruct (poll_inv_reachable _ Hr _ _ _ _ Hg) as [Hs _].
Qed.

Lemma C4_flag_monotonic_witness :
  ∃ s', exec [Run 1; Run 1; Run 0; Run 0; Run 1; Run 1]
          (init [[CExitWithoutError]; [CShouldExit; CShouldExit]]) = Some s' ∧
        ShouldExit s' = true ∧
        goroutines s' !! 1 = Some (Client Idle [] [VBool false; VBool true]) ∧
        settled (polls [VBool false; VBool true]).
Proof.
  destruct C4_flag_monotonic as (H1 & _ & H2).
  eexists. split; [vm_compute; reflexivity|]. split; [|split; [reflexivity|]].
  - apply (H1 [Run 1; Run 1]
             (State true [] false None [] [] false
                [Client (In_ExitWithoutError EWO_50) [] [];
                 Client Idle [CShouldExit] [VBool false]])); reflexivity.
  - apply (H2 (State true [] false None [] [] false
                 [Client (In_ExitWithoutError EWO_50) [] [];
                  Client Idle [] [VBool false; VBool true]])
              1 Idle [] [VBool false; VBool true]); [|reflexivity].
    exists [[CExitWithoutError]; [CShouldExit; CShouldExit]],
      [Run 1; Run 1; Run 0; Run 0; Run 1; Run 1].
    vm_compute. reflexivity.
Defined.

(** ** WaitForExit *)

Lemma no_Wait_when_flagged t g s s' g' :
  shouldExit s = true → step_goroutine t g s = Some (s', g') →
  calls_Wait g' = false.
Proof.
  intros Hf H. unfold_steps. simpl in H.
  break_step; simpl in *; try done; try (destruct c; done); congruence.
Qed.

(** C6: once the exit flag is set, [WaitForExit] does not wait.  In any
    interleaving no step taken with the flag set leads to the call of
    [exitCond.Wait()]: the loop test at line 120 goes on to line 123.  A
    call made with the flag set and the mutex free returns with the state
    untouched, in particular without ever being on the notify list of
    [exitCond]; a second call, made at once or after any calls other than
    [ExitWithError], returns the same value. *)
Theorem C6_WaitForExit_idempotent :
  (∀ (t : tid) g s s' g',
     shouldExit s = true → step_goroutine t g s = Some (s', g') →
     calls_Wait g' = false) ∧
  (∀ (t : tid) s,
     shouldExit s = true → WaitForExit t WFE_120 s = Some (s, inl WFE_123)) ∧
  (∀ (t : tid) s,
     shouldExit s = true → mutex s = None →
     ∃ r,
       call_run t CWaitForExit s = Some (s, VError r) ∧
       calls_run t [CWaitForExit; CWaitForExit] s =
         Some (s, [VError r; VError r]) ∧
       (∀ between s' rets,
          forallb (λ c, negb (is_ExitWithError c)) between = true →
          calls_run t between s = Some (s', rets) →
          call_run t CWaitForExit s' = Some (s', VError r))).
Proof.
  split; [apply no_Wait_when_flagged|]. split.
  { intros t s Hf. simpl. by rewrite Hf. }
  intros t s Hf Hm.
  exists (reason_of (exitReasons s)).
  assert (H1 : call_run t CWaitForExit s =
               Some (s, VError (reason_of (exitReasons s)))).
  { unfold call_run. by rewrite WaitForExit_run. }
  split; [done|]. split.
  - cbn [calls_run]. rewrite H1. cbn [mbind option_bind]. by rewrite H1.
  - intros between s' rets Hb Hrun.
    destruct (calls_run_frame _ _ _ _ _ Hb Hf Hm Hrun) as (Hf' & Hm' & Hr').
    unfold call_run. rewrite WaitForExit_run by done. by rewrite Hr'.
Qed.

Lemma C6_WaitForExit_idempotent_witness :
  calls_Wait (Client (In_WaitForExit WFE_123) [] []) = false ∧
  WaitForExit 0 WFE_120
    (State true [ErrNew 1 "a"; ErrNew 2 "b"] false (Some 0) [] [] false []) =
    Some (State true [ErrNew 1 "a"; ErrNew 2 "b"] false (Some 0) [] [] false [],
          inl WFE_123) ∧
  calls_run 0 [CWaitForExit; CWaitForExit]
    (State true [ErrNew 1 "a"; ErrNew 2 "b"] false None [] [] false []) =
  Some (State true [ErrNew 1 "a"; ErrNew 2 "b"] false None [] [] false [],
        [VError (joinError [ErrNew 1 "a"; ErrNew 2 "b"]);
         VError (joinError [ErrNew 1 "a"; ErrNew 2 "b"])]) ∧
  call_run 0 CWaitForExit
    (State true [ErrNew 1 "a"; ErrNew 2 "b"] true None [] [] false
       [Bridge WIR_72]) =
  Some (State true [ErrNew 1 "a"; ErrNew 2 "b"] true None [] [] false
          [Bridge WIR_72],
        VError (joinError [ErrNew 1 "a"; ErrNew 2 "b"])).
Proof.
  destruct C6_WaitForExit_idempotent as (H1 & H2 & H3).
  split; [|split].
  - apply (H1 0 (Client (In_WaitForExit WFE_120) [] [])
              (State true [] false (Some 0) [] [] false [])
              (State true [] false (Some 0) [] [] false [])); reflexivity.
  - apply H2. reflexivity.
  - destruct (H3 0 (State true [ErrNew 1 "a"; ErrNew 2 "b"] false None [] [] false [])
                eq_refl eq_refl) as (r & R1 & R2 & R3).
    vm_compute in R1. injection R1 as <-. split; [exact R2|].
    apply (R3 [CExitWithoutError; CShouldExit; CExitOnInterrupt; CExitReason]
              (State true [ErrNew 1 "a"; ErrNew 2 "b"] true None [] [] false
                 [Bridge WIR_72])
              [VUnit; VBool true; VUnit;
               VError (joinError [ErrNew 1 "a"; ErrNew 2 "b"])]);
      reflexivity.
Defined.

(** ** ExitOnInterrupt *)

Lemma listens_is_bridge g i : listens g i = true → is_bridge g = true.
Proof. by destruct g. Qed.






(** ** The interrupt *)

Lemma existsb_notified_intro (cs : list chan) c ch :
  cs !! c = Some ch → notified ch = true → existsb notified cs = true.
Proof.
  intros Hc Hn. apply existsb_exists. exists ch. split; [|done].
  apply list_elem_of_In. by eapply list_elem_of_lookup_2.
Qed.

Lemma existsb_notified_elim (cs : list chan) :
  existsb notified cs = true → ∃ c ch, cs !! c = Some ch ∧ notified ch = true.
Proof.
  intros (ch & Hin & Hn)%existsb_exists.
  apply list_elem_of_In, list_elem_of_lookup in Hin as [c Hc]. eauto.
Qed.

Lemma torn_down_step t g s s' g' :
  step_goroutine t g s = Some (s', g') → torn_down g = true →
  torn_down g' = true.
Proof.
  intros H. unfold_steps. simpl in H.
  break_step; simpl; done.
Qed.

Lemma torn_down_exec trace s s' t g :
  exec trace s = Some s' → goroutines s !! t = Some g → torn_down g = true →
  ∃ g', goroutines s' !! t = Some g' ∧ torn_down g' = true.
Proof.
  revert s g. induction trace as [|l trace IH]; simpl; intros s g.
  - intros [= <-]. eauto.
  - destruct (step l s) as [s1|] eqn:E; simpl; [|done].
    intros H Hg Ht. destruct l as [t'|].
    + apply step_Run in E as (g0 & g0' & s0 & _ & Hg0 & Hs & ->).
      destruct (decide (t' = t)) as [->|Hne].
      * assert (g0 = g) by congruence. subst g0.
        eapply IH; [done| |by eapply torn_down_step].
        simpl. by eapply lookup_after_same.
      * eapply IH; [done| |done]. simpl. by apply lookup_after_other.
    + apply step_Interrupt in E as [_ ->].
      eapply IH; [done| |done].
      unfold interrupt. by destruct (existsb _ _).
Qed.

Lemma no_listener s t g :
  inv s → goroutines s !! t = Some g → torn_down g = true →
  existsb notified (chans s) = false.
Proof.
  intros (_ & (_ & _ & B3 & _) & N & _) Hg Ht.
  destruct (existsb notified (chans s)) eqn:E; [|done].
  apply existsb_notified_elim in E as (c & ch & Hc & Hn).
  destruct (N _ _ Hc Hn) as (t' & g' & Hg' & L).
  assert (t' = t).
  { eapply bridges_unique; eauto using listens_is_bridge. by destruct g as [|[]|]. }
  subst t'. assert (g' = g) by congruence. subst g'.
  by destruct g as [|[]|].
Qed.

(** What the bridge does when all goes well: while the routine's channel
    is registered, an interrupt does not end the process but is put in the
    channel; the child that receives it runs [ExitWithoutError], which
    sets the exit flag.  When [WaitForExit] has returned in the routine,
    lines 86 and 87 unregister the channel and close it.  From the moment
    the routine is past [signal.Stop] no channel is registered in any
    later state, so every interrupt from then on ends the process. *)
Lemma interrupt_bridge :
  (∀ (t : tid) s c ch,
     killed s = false → chans s !! c = Some ch → notified ch = true →
     ∃ s1 s2 s3 s4,
       step Interrupt s = Some s1 ∧ killed s1 = false ∧
       chans s1 !! c = Some (Chan true (closed ch) true) ∧
       child t (CH_79 c) s1 = Some (s2, inl (CH_80 EWO_49)) ∧
       child t (CH_80 EWO_49) s2 = Some (s3, inl (CH_80 EWO_50)) ∧
       child t (CH_80 EWO_50) s3 = Some (s4, inl CH_ret) ∧
       shouldExit s4 = true) ∧
  (∀ (t : tid) s c ch,
     chans s !! c = Some ch → closed ch = false →
     ∃ s1 s2,
       waitForInterruptRoutine t (WIR_86 c) s = Some (s1, inl (WIR_87 c)) ∧
       waitForInterruptRoutine t (WIR_87 c) s1 = Some (s2, inl WIR_ret) ∧
       chans s2 !! c = Some (Chan (buf ch) true false)) ∧
  (∀ s (t : tid) g,
     reachable s → goroutines s !! t = Some g → torn_down g = true →
     ∀ trace s',
       exec trace s = Some s' →
       existsb notified (chans s') = false ∧ killed (interrupt s') = true).
Proof.
  split; [|split].
  - intros t s c ch Hk Hc Hn.
    pose proof (existsb_notified_intro _ _ _ Hc Hn) as He.
    assert (Hc1 : (deliver <$> chans s) !! c = Some (Chan true (closed ch) true)).
    { rewrite list_lookup_fmap, Hc. simpl. unfold deliver. rewrite Hn.
      destruct ch; simpl in *; by subst. }
    do 4 eexists. unfold step, interrupt. rewrite Hk, He.
    split; [reflexivity|]. split; [done|]. split; [done|].
    unfold child, receive. simpl. rewrite Hc1. simpl.
    repeat split.
  - intros t s c ch Hc Hcl. apply lookup_lt_Some in Hc as Hlt.
    do 2 eexists. unfold waitForInterruptRoutine, update_chan, close.
    rewrite Hc. simpl. split; [reflexivity|]. simpl.
    rewrite list_lookup_insert_eq by done. simpl. rewrite Hcl.
    split; [reflexivity|]. simpl.
    rewrite list_lookup_insert_eq by (by rewrite length_insert). done.
  - intros s t g Hr Hg Ht trace s' He.
    destruct (torn_down_exec _ _ _ _ _ He Hg Ht) as (g' & Hg' & Ht').
    assert (Hn : existsb notified (chans s') = false).
    { eapply no_listener; eauto. apply inv_reachable.
      by eapply reachable_exec. }
    split; [done|]. unfold interrupt. by rewrite Hn.
Qed.

Lemma absorbing_forever b trace s' :
  exec trace (absorbing b) = Some s' → ∃ b', s' = absorbing b'.
Proof.
  revert b. induction trace as [|l trace IH]; simpl; intros b.
  - intros [= <-]. eauto.
  - destruct l as [[|[|[|t]]]|]; simpl; try done. apply (IH true).
Qed.

(** C8 fails on the code.  The handler is removed by the routine, after
    its [WaitForExit] has returned, and not by the interrupt.  A second
    interrupt that arrives before the routine has reached [signal.Stop]
    is put in the channel like the first, and the process goes on
    (schedule [two_interrupts]).  And the routine's wake-up can be lost
    as in C1: in the schedule [interrupt_absorbed] the child stores the
    flag and broadcasts between the routine's test of the flag (line 120)
    and its [exitCond.Wait()] (line 121).  The first interrupt has then
    set the exit flag, no goroutine can take a step, and in every
    continuation the routine is still suspended before line 86 with its
    channel registered: every later interrupt is absorbed, none ends the
    process. *)
Theorem C8_interrupts_absorbed :
  (∃ s, exec two_interrupts (init [[CExitOnInterrupt]]) = Some s ∧
        shouldExit s = true ∧ killed s = false ∧
        chans s = [Chan true false true]) ∧
  exec interrupt_absorbed (init [[CExitOnInterrupt]]) =
    Some (absorbing false) ∧
  shouldExit (absorbing false) = true ∧
  (∀ t, blocked t (absorbing false) = true) ∧
  (∀ trace s',
     exec trace (absorbing false) = Some s' →
     killed s' = false ∧
     goroutines s' !! 1 = Some (Bridge (WIR_85 0 WFE_121_suspended)) ∧
     existsb notified (chans s') = true ∧
     step Interrupt s' = Some (absorbing true)).
Proof.
  split.
  { eexists. split; [vm_compute; reflexivity|]. repeat split. }
  split; [vm_compute; reflexivity|]. split; [done|]. split.
  - intros [|[|[|t]]]; reflexivity.
  - intros trace s' [b' ->]%absorbing_forever. by destruct b'.
Qed.

Lemma C8_interrupts_absorbed_witness :
  killed (absorbing true) = false ∧
  goroutines (absorbing true) !! 1 =
    Some (Bridge (WIR_85 0 WFE_121_suspended)) ∧
  existsb notified (chans (absorbing true)) = true ∧
  step Interrupt (absorbing true) = Some (absorbing true).
Proof.
  destruct C8_interrupts_absorbed as (_ & _ & _ & _ & H).
  apply (H [Interrupt; Interrupt; Interrupt] (absorbing true)). reflexivity.
Defined.

(** ** The wake-up *)

(** A waiter that is already suspended when the broadcast comes is woken
    and returns: the wake-up is lost only in the window between lines 120
    and 121. *)
Example wakeup_delivered :
  exec (replicate 4 (Run 0) ++ replicate 3 (Run 1) ++ replicate 7 (Run 0))
       (init [[CWaitForExit]; [CExitWithoutError]]) =
    Some (State true [] false None [] [] false
            [Client Idle [] [VError Nil]; Client Idle [] [VUnit]]).
Proof. vm_compute. reflexivity. Qed.

(** The routine of [ExitOnInterrupt] when exit is signalled by a call: it
    stops and closes its channel, its child returns, and the next
    interrupt ends the process. *)
Example bridge_torn_down_on_exit :
  exec (replicate 6 (Run 0) ++ replicate 6 (Run 1) ++ replicate 3 (Run 0) ++
        replicate 9 (Run 1) ++ replicate 3 (Run 2) ++ [Interrupt])
       (init [[CExitOnInterrupt; CExitWithoutError]]) =
    Some (State true [] true None [] [Chan false true false] true
            [Client Idle [] [VUnit; VUnit]; Bridge WIR_ret; Child CH_ret]).
Proof. vm_compute. reflexivity. Qed.

Lemma asleep_forever k trace s' :
  exec trace (asleep k) = Some s' → ∃ k', s' = asleep k'.
Proof.
  revert k. induction trace as [|l trace IH]; simpl; intros k.
  - intros [= <-]. eauto.
  - destruct k; [done|].
    destruct l as [[|[|t]]|]; simpl; try done. apply IH.
Qed.

(** C1 fails on the code.  [ExitWithoutError] stores the flag and
    broadcasts without holding [mutex], so both can fall between a
    waiter's test of the flag (line 120) and its [exitCond.Wait()] (line
    121).  With one waiter and one call of [ExitWithoutError] the schedule
    [lost_wakeup] ends with the flag set, the call returned and the waiter
    suspended on the notify list; no goroutine can take a step, and in
    every continuation the waiter is still suspended: it never returns. *)
Theorem C1_lost_wakeup :
  exec lost_wakeup (init [[CWaitForExit]; [CExitWithoutError]]) =
    Some (asleep false) ∧
  shouldExit (asleep false) = true ∧
  goroutines (asleep false) !! 1 = Some (Client Idle [] [VUnit]) ∧
  (∀ t, blocked t (asleep false) = true) ∧
  (∀ trace s',
     exec trace (asleep false) = Some s' →
     goroutines s' !! 0 =
       Some (Client (In_WaitForExit WFE_121_suspended) [] [])).
Proof.
  split; [vm_compute; reflexivity|]. split; [done|]. split; [done|]. split.
  - intros [|[|t]]; reflexivity.
  - intros trace s' [k' ->]%asleep_forever. reflexivity.
Qed.

Lemma C1_lost_wakeup_witness :
  goroutines (asleep true) !! 0 =
    Some (Client (In_WaitForExit WFE_121_suspended) [] []).
Proof.
  destruct C1_lost_wakeup as (_ & _ & _ & _ & H).
  apply (H [Interrupt] (asleep true)). reflexivity.
Defined.

(** * Further properties *)

(** ** Invariants of executions *)

Lemma exec_invariant (P : state → Prop) :
  (∀ l s s', step l s = Some s' → P s → P s') →
  ∀ trace s s', exec trace s = Some s' → P s → P s'.
Proof.
  intros Hstep. induction trace as [|l tr IH]; simpl; intros s s'.
  - by intros [= <-].
  - destruct (step l s) as [s1|] eqn:E; simpl; [|done].
    intros H I. apply (IH s1); [done|]. by eapply Hstep.
Qed.

Lemma reachable_invariant (P : state → Prop) :
  (∀ clients, P (init clients)) →
  (∀ l s s', step l s = Some s' → P s → P s') →
  ∀ s, reachable s → P s.
Proof.
  intros Hinit Hstep s (cl & tr & H).
  eapply exec_invariant; [exact Hstep|exact H|apply Hinit].
Qed.

Lemma init_lookup clients t g :
  goroutines (init clients) !! t = Some g → ∃ todo, g = Client Idle todo [].
Proof.
  simpl. rewrite list_lookup_fmap.
  destruct (clients !! t); simpl; [|done]. intros [= <-]. eauto.
Qed.

(** ** No step fails *)

Lemma step_reads_first t g s s' g' :
  step_goroutine t g s = Some (s', g') → reads_first g' = true →
  (reads_first g = true ∧ exitReasons s' = exitReasons s) ∨ exitReasons s' ≠ [].
Proof.
  intros H. unfold_steps. simpl in H.
  break_step; simpl; try done; try (destruct c; done); auto.
  all: try (intros _; right; intros Hnil; rewrite Hnil in *; simpl in *; done).
Qed.

Lemma spawned_not_reading g x : x ∈ spawned g → reads_first x = false.
Proof. spawned_cases g H. Qed.

Lemma log_inv_step l s s' : step l s = Some s' → log_inv s → log_inv s'.
Proof.
  destruct l as [t|].
  - intros (g & g' & s1 & _ & Hg & Hs & ->)%step_Run Inv t' x Hx Hr. simpl in *.
    destruct (step_goroutine_frame _ _ _ _ _ Hs) as (_ & _ & Hlog & _).
    destruct (lookup_after _ _ _ _ _ _ _ Hg Hx) as [[-> ->]|[[Hne Hx']|Hin]].
    + destruct (step_reads_first _ _ _ _ _ Hs Hr) as [[Hr' ->]|?]; eauto.
    + pose proof (Inv _ _ Hx' Hr) as Hn.
      destruct Hlog as [->|[e ->]]; [done|]. by destruct (exitReasons s).
    + by rewrite (spawned_not_reading _ _ Hin) in Hr.
  - intros [_ ->]%step_Interrupt Inv.
    unfold interrupt. destruct (existsb _ _); simpl; apply Inv.
Qed.

(** What a step does to the channels: it closes none but the routine's at
    line 87; the channel of the goroutine stays the same, or was just made;
    a started goroutine gets the channel of the one that starts it. *)
Lemma step_chans t g s s' g' :
  step_goroutine t g s = Some (s', g') →
  (∀ i ch, chans s !! i = Some ch →
           ∃ ch', chans s' !! i = Some ch' ∧
                  (closed ch' = closed ch ∨ g = Bridge (WIR_87 i))) ∧
  (∀ c, chan_of g' = Some c →
        (chan_of g = Some c ∧ g ≠ Bridge (WIR_87 c)) ∨
        (g = Bridge WIR_72 ∧ chans s' !! c = Some (Chan false false false))) ∧
  (∀ x c, x ∈ spawned g → chan_of x = Some c →
          chan_of g = Some c ∧ is_bridge x = false ∧ chans s' = chans s).
Proof.
  intros H. unfold_steps. simpl in H.
  break_step.
  all: split; [|split].
  all: try (intros i ch Hi; simpl;
            first [ by eauto
                  | match goal with |- context [<[?k:=_]> _ !! i] =>
                      destruct (decide (k = i)) as [->|Hne];
                      [ rewrite list_lookup_insert_eq
                          by (eapply lookup_lt_Some; eassumption);
                        eexists; split; [reflexivity|];
                        simpl; first [left; congruence | by right]
                      | rewrite list_lookup_insert_ne by done; by eauto ]
                    end
                  | rewrite lookup_app_l by (eapply lookup_lt_Some; eassumption);
                    by eauto ]).
  all: try (intros c' Hc'; simpl in *; try done;
            first [ left; split; congruence
                  | right; split; [done|];
                    injection Hc' as <-;
                    by rewrite lookup_app_r, Nat.sub_diag by lia ]).
  all: try (intros x c' Hx Hc'; simpl in Hx;
            repeat (apply elem_of_cons in Hx as [->|Hx]); try (by inversion Hx);
            simpl in *; done).
Qed.

Lemma chan_inv_step l s s' :
  step l s = Some s' → bridges (goroutines s) ≤ 1 → chan_inv s → chan_inv s'.
Proof.
  destruct l as [t|].
  - intros (g & g' & s1 & _ & Hg & Hs & ->)%step_Run B Inv t' x c Hx Hc.
    simpl in *.
    destruct (step_chans _ _ _ _ _ Hs) as (F1 & F2 & F3).
    destruct (lookup_after _ _ _ _ _ _ _ Hg Hx) as [[-> ->]|[[Hne Hx']|Hin]].
    + destruct (F2 _ Hc) as [[Hc' Hn]|[-> Hnew]].
      * destruct (Inv _ _ _ Hg Hc') as (ch & Hch & Hcl).
        destruct (F1 _ _ Hch) as (ch' & Hch' & [Hsame|Hclose]); [|done].
        exists ch'. split; [done|]. intros Hb. rewrite Hsame. apply Hcl.
        by destruct (step_kind _ _ _ _ _ Hs) as [<- _].
      * eauto.
    + destruct (Inv _ _ _ Hx' Hc) as (ch & Hch & Hcl).
      destruct (F1 _ _ Hch) as (ch' & Hch' & [Hsame|Hclose]).
      * exists ch'. split; [done|]. intros Hb. rewrite Hsame. auto.
      * exists ch'. split; [done|]. intros Hb. exfalso. apply Hne.
        subst g. eapply bridges_unique; eauto.
    + destruct (F3 _ _ Hin Hc) as (Hc' & Hnb & Hsame).
      destruct (Inv _ _ _ Hg Hc') as (ch & Hch & _).
      exists ch. rewrite Hsame. split; [done|]. congruence.
  - intros [_ ->]%step_Interrupt _ Inv t g c Hg Hc.
    unfold interrupt in *. destruct (existsb _ _); simpl in *; [|by eapply Inv].
    destruct (Inv _ _ _ Hg Hc) as (ch & Hch & Hcl).
    exists (deliver ch). rewrite list_lookup_fmap, Hch. split; [done|].
    intros Hb. unfold deliver. destruct (notified ch); simpl; auto.
Qed.

Lemma safe_inv_init clients : safe_inv (init clients).
Proof.
  split; [apply inv_init|]. split.
  - intros t g [todo ->]%init_lookup. done.
  - intros t g c [todo ->]%init_lookup. done.
Qed.

Lemma safe_inv_step l s s' : step l s = Some s' → safe_inv s → safe_inv s'.
Proof.
  intros H (I & L & C). split; [by eapply inv_step|].
  split; [by eapply log_inv_step|].
  eapply chan_inv_step; eauto. by destruct I as (_ & (_ & _ & ? & _) & _).
Qed.

Lemma safe_inv_reachable s : reachable s → safe_inv s.
Proof.
  apply reachable_invariant; [apply safe_inv_init|apply safe_inv_step].
Qed.

Lemma waits_blocked t g s : is_Some (waits t g s) → step_goroutine t g s = None.
Proof.
  intros [w Hw]. unfold waits in Hw. unfold_steps.
  destruct g as [pc todo rets|pc|pc]; simpl in *.
  - destruct pc as [| |p|p|p|p|p]; try destruct p; try destruct todo; simpl in *;
      try done; repeat case_match; simpl in *; try done.
  - destruct pc as [| | |c p| | |]; try destruct p; simpl in *; try done;
      repeat case_match; simpl in *; try done.
  - destruct pc; simpl in *; try done; repeat case_match; simpl in *; try done.
Qed.

Lemma blocked_waits t g s :
  (critical g = true → mutex s = Some t) →
  (reads_first g = true → exitReasons s ≠ []) →
  (∀ c, chan_of g = Some c →
        ∃ ch, chans s !! c = Some ch ∧ (is_bridge g = true → closed ch = false)) →
  step_goroutine t g s = None → is_Some (waits t g s).
Proof.
  intros Hm Hl Hc H. unfold waits. unfold_steps.
  destruct g as [pc todo rets|pc|pc]; simpl in *.
  - destruct pc as [| |p|p|p|p|p]; try destruct p; try destruct todo;
      try match goal with p : ExitReason_pc |- _ => destruct p end;
      try match goal with p : ExitWithoutError_pc |- _ => destruct p end;
      simpl in *; try done; eauto;
      try (rewrite Hm in H by done; simpl in H; done);
      try (destruct (exitReasons s); simpl in *; [by destruct Hl|done]);
      repeat case_match; simpl in *; try done; eauto.
  - destruct pc as [| | |c p| | |]; try destruct p;
      try match goal with p : ExitReason_pc |- _ => destruct p end;
      simpl in *; try done; eauto;
      try (rewrite Hm in H by done; simpl in H; done);
      try (destruct (exitReasons s); simpl in *; [by destruct Hl|done]);
      try (destruct (Hc _ eq_refl) as (ch & Hch & Hcl); rewrite Hch in H;
           simpl in H; try rewrite Hcl in H by done; done);
      repeat case_match; simpl in *; try done; eauto.
  - destruct pc as [c|p|]; try destruct p; simpl in *; try done; eauto.
    destruct (Hc _ eq_refl) as (ch & Hch & _). rewrite Hch in *.
    destruct (buf ch), (closed ch); simpl in *; try done; eauto.
Qed.

Lemma critical_not_waiting t g s : critical g = true → waits t g s = None.
Proof.
  unfold waits.
  destruct g as [pc todo rets|pc|pc]; simpl.
  - destruct pc as [| |p|p|p|p|p]; try destruct p; try destruct todo;
      try match goal with p : ExitReason_pc |- _ => destruct p end;
      simpl; done.
  - destruct pc as [| | |c p| | |]; try destruct p;
      try match goal with p : ExitReason_pc |- _ => destruct p end;
      simpl; done.
  - destruct pc; done.
Qed.

Lemma step_Run_None t g s :
  killed s = false → goroutines s !! t = Some g →
  (step (Run t) s = None ↔ step_goroutine t g s = None).
Proof.
  intros Hk Hg. unfold step. rewrite Hk, Hg. simpl.
  destruct (step_goroutine t g s) as [[s' g']|]; simpl; split; done.
Qed.

(** X1: mutual exclusion.  In every reachable state at most one goroutine
    is between a [Lock] and the matching [Unlock] of [mutex], in whatever
    function, and it is the goroutine recorded as the holder. *)
Theorem mutual_exclusion (s : state) (t1 t2 : tid) (g1 g2 : goroutine) :
  reachable s →
  goroutines s !! t1 = Some g1 → goroutines s !! t2 = Some g2 →
  critical g1 = true → critical g2 = true →
  t1 = t2 ∧ mutex s = Some t1.
Proof.
  intros (Mx & _)%inv_reachable H1 H2 C1 C2.
  pose proof (Mx _ _ H1 C1). pose proof (Mx _ _ H2 C2). split; congruence.
Qed.

Lemma mutual_exclusion_witness :
  0 = 0 ∧
  mutex (State false [] false (Some 0) [] [] false
           [Client (In_ExitReason ER_32) [] []]) = Some 0.
Proof.
  apply (mutual_exclusion
           (State false [] false (Some 0) [] [] false
              [Client (In_ExitReason ER_32) [] []])
           0 0 (Client (In_ExitReason ER_32) [] [])
           (Client (In_ExitReason ER_32) [] [])); try reflexivity.
  exists [[CExitReason]], [Run 0; Run 0]. vm_compute. reflexivity.
Defined.

(** X2: no step of the package fails.  In a reachable state of a process
    that has not been ended, a goroutine has no step only when it has
    returned, waits for the mutex that another one holds, is suspended in
    [exitCond.Wait()] and still on the notify list, or is the child
    receiving from an empty channel that is not closed.  So no [Unlock]
    finds the mutex unlocked, line 38 never reads past the end of
    [exitReasons], and no channel is closed twice or used before it is
    made. *)
Theorem blocked_only_waiting (s : state) (t : tid) (g : goroutine) :
  reachable s → killed s = false → goroutines s !! t = Some g →
  (step (Run t) s = None ↔ is_Some (waits t g s)).
Proof.
  intros ((Mx & _) & L & C)%safe_inv_reachable Hk Hg.
  rewrite (step_Run_None _ _ _ Hk Hg). split.
  - apply blocked_waits; eauto.
  - apply waits_blocked.
Qed.

Lemma blocked_only_waiting_witness :
  step (Run 1)
    (State false [] false (Some 0) [] [] false
       [Client (In_ExitReason ER_32) [] []; Client (In_ExitReason ER_31) [] []])
    = None ↔
  is_Some (waits 1 (Client (In_ExitReason ER_31) [] [])
             (State false [] false (Some 0) [] [] false
                [Client (In_ExitReason ER_32) [] [];
                 Client (In_ExitReason ER_31) [] []])).
Proof.
  apply (blocked_only_waiting
           (State false [] false (Some 0) [] [] false
              [Client (In_ExitReason ER_32) [] [];
               Client (In_ExitReason ER_31) [] []])
           1 (Client (In_ExitReason ER_31) [] [])); try reflexivity.
  exists [[CExitReason]; [CExitReason]], [Run 0; Run 0; Run 1].
  vm_compute. reflexivity.
Defined.

Lemma holder_inv_step l s s' :
  step l s = Some s' → holder_inv s → holder_inv s'.
Proof.
  destruct l as [t|].
  - intros (g & g' & s1 & _ & Hg & Hs & ->)%step_Run Inv h Hh. simpl in *.
    destruct (step_lock_effect _ _ _ _ _ Hs)
      as [[Hm Hc]|[(Hm & Hm' & Hc & Hc')|(Hc & Hm' & Hc')]].
    + rewrite Hm in Hh. destruct (Inv _ Hh) as (x & Hx & Cx).
      destruct (decide (h = t)) as [->|Hne].
      * exists g'. split; [by eapply lookup_after_same|]. congruence.
      * exists x. split; [by apply lookup_after_other|done].
    + assert (h = t) by congruence. subst h.
      exists g'. split; [by eapply lookup_after_same|done].
    + congruence.
  - intros [_ ->]%step_Interrupt Inv.
    unfold interrupt. destruct (existsb _ _); simpl; apply Inv.
Qed.

Lemma holder_inv_reachable s : reachable s → holder_inv s.
Proof.
  apply reachable_invariant; [by intros cl t|apply holder_inv_step].
Qed.

(** X3: the mutex is never left locked.  Whenever [mutex] is held, its
    holder is a goroutine inside a critical section of one of the
    functions, and that goroutine has a step: no function returns, blocks
    or suspends with the mutex held. *)
Theorem mutex_holder_runs (s : state) (t : tid) :
  reachable s → mutex s = Some t →
  ∃ g, goroutines s !! t = Some g ∧ critical g = true ∧
       (killed s = false → is_Some (step (Run t) s)).
Proof.
  intros Hr Hm.
  destruct (holder_inv_reachable _ Hr _ Hm) as (g & Hg & Hc).
  exists g. split; [done|]. split; [done|]. intros Hk.
  destruct (step (Run t) s) as [s'|] eqn:E; [eauto|].
  destruct (safe_inv_reachable _ Hr) as ((Mx & _) & L & C).
  apply (step_Run_None _ _ _ Hk Hg) in E.
  apply blocked_waits in E as [w Hw]; eauto.
  rewrite critical_not_waiting in Hw by done. done.
Qed.

Lemma mutex_holder_runs_witness :
  ∃ g, goroutines
         (State false [] false (Some 0) [] [] false
            [Client (In_ExitReason ER_32) [] [];
             Client (In_ExitReason ER_31) [] []]) !! 0 = Some g ∧
       critical g = true ∧
       (killed
          (State false [] false (Some 0) [] [] false
             [Client (In_ExitReason ER_32) [] [];
              Client (In_ExitReason ER_31) [] []]) = false →
        is_Some
          (step (Run 0)
             (State false [] false (Some 0) [] [] false
                [Client (In_ExitReason ER_32) [] [];
                 Client (In_ExitReason ER_31) [] []]))).
Proof.
  apply (mutex_holder_runs
           (State false [] false (Some 0) [] [] false
              [Client (In_ExitReason ER_32) [] [];
               Client (In_ExitReason ER_31) [] []]) 0); [|reflexivity].
  exists [[CExitReason]; [CExitReason]], [Run 0; Run 0; Run 1].
  vm_compute. reflexivity.
Defined.

Lemma first_entry_stable trace s s' e :
  exec trace s = Some s' → exitReasons s !! 0 = Some e →
  exitReasons s' !! 0 = Some e.
Proof.
  intros H He. destruct (exec_frame _ _ _ H) as (_ & _ & more & ->).
  apply lookup_app_l_Some. done.
Qed.

(** X4: the read outside the lock.  Line 38 reads [exitReasons[0]] after
    the mutex has been released.  Whenever a goroutine is in that branch
    the log has a first entry, and whatever the others do before the read
    happens, the first entry stays the same. *)
Theorem first_reason_read (s : state) (t : tid) (g : goroutine) :
  reachable s → goroutines s !! t = Some g → reads_first g = true →
  ∃ e, exitReasons s !! 0 = Some e ∧
       ∀ trace s', exec trace s = Some s' → exitReasons s' !! 0 = Some e.
Proof.
  intros (_ & L & _)%safe_inv_reachable Hg Hr.
  pose proof (L _ _ Hg Hr) as Hn.
  destruct (exitReasons s) as [|e l] eqn:E; [done|].
  exists e. split; [done|]. intros trace s' H.
  eapply first_entry_stable; [done|]. by rewrite E.
Qed.

Lemma first_reason_read_witness :
  ∃ e, exitReasons
         (State true [ErrNew 0 "disk full"] false None [] [] false
            [Client (In_ExitReason ER_38) [] [VUnit]]) !! 0 = Some e ∧
       ∀ trace s',
         exec trace
           (State true [ErrNew 0 "disk full"] false None [] [] false
              [Client (In_ExitReason ER_38) [] [VUnit]]) = Some s' →
         exitReasons s' !! 0 = Some e.
Proof.
  apply (first_reason_read
           (State true [ErrNew 0 "disk full"] false None [] [] false
              [Client (In_ExitReason ER_38) [] [VUnit]])
           0 (Client (In_ExitReason ER_38) [] [VUnit])); try reflexivity.
  exists [[CExitWithError (ErrNew 0 "disk full"); CExitReason]],
         (replicate 11 (Run 0)).
  vm_compute. reflexivity.
Defined.

(** ** WaitForExit and the exit flag *)

Lemma step_past_loop t g s s' g' :
  step_goroutine t g s = Some (s', g') → past_loop g' = true →
  past_loop g = true ∨ shouldExit s' = true.
Proof.
  intros H. unfold_steps. simpl in H.
  break_step; simpl; try done; try (destruct c; done); auto.
Qed.

Lemma spawned_not_past_loop g x : x ∈ spawned g → past_loop x = false.
Proof. spawned_cases g H. Qed.

Lemma flag_inv_step l s s' : step l s = Some s' → flag_inv s → flag_inv s'.
Proof.
  destruct l as [t|].
  - intros (g & g' & s1 & _ & Hg & Hs & ->)%step_Run Inv t' x Hx Hp. simpl in *.
    destruct (step_goroutine_frame _ _ _ _ _ Hs) as (Hf & _).
    destruct (lookup_after _ _ _ _ _ _ _ Hg Hx) as [[-> ->]|[[Hne Hx']|Hin]].
    + destruct (step_past_loop _ _ _ _ _ Hs Hp); eauto.
    + eauto.
    + by rewrite (spawned_not_past_loop _ _ Hin) in Hp.
  - intros [_ ->]%step_Interrupt Inv.
    unfold interrupt. destruct (existsb _ _); simpl; apply Inv.
Qed.

Lemma flag_inv_reachable s : reachable s → flag_inv s.
Proof.
  apply reachable_invariant; [|apply flag_inv_step].
  intros cl t g [todo ->]%init_lookup. done.
Qed.

Lemma step_returns_WaitForExit t pc todo rets s s' todo' rets' :
  step_goroutine t (Client (In_WaitForExit pc) todo rets) s =
    Some (s', Client Idle todo' rets') →
  past_loop_WFE pc = true ∧ ∃ e, rets' = rets ++ [VError e].
Proof.
  intros H. unfold_steps. simpl in H.
  break_step; simpl; eauto.
Qed.

(** X5: [WaitForExit] returns only after an exit.  In whatever
    interleaving, when a goroutine takes the step that returns from
    [WaitForExit], the exit flag is set; no wake-up makes it return
    early. *)
Theorem WaitForExit_returns_after_exit (s s' : state) (t : tid)
    (pc : WaitForExit_pc) (todo todo' : list call) (rets rets' : list value) :
  reachable s →
  goroutines s !! t = Some (Client (In_WaitForExit pc) todo rets) →
  step (Run t) s = Some s' →
  goroutines s' !! t = Some (Client Idle todo' rets') →
  shouldExit s' = true.
Proof.
  intros Hr Hg Hs Hg'.
  pose proof (flag_inv_reachable _ Hr) as Inv.
  destruct (step_frame _ _ _ Hs) as (Hf & _). apply Hf.
  apply step_Run in Hs as (g & g' & s1 & _ & Hg0 & Hs & ->).
  assert (g = Client (In_WaitForExit pc) todo rets) by congruence. subst g.
  simpl in Hg'. rewrite (lookup_after_same _ _ _ _ _ Hg0) in Hg'.
  injection Hg' as ->.
  apply step_returns_WaitForExit in Hs as [Hp _].
  by apply (Inv _ _ Hg).
Qed.

Lemma WaitForExit_returns_after_exit_witness :
  shouldExit
    (State true [] false None [] [] false
       [Client Idle [] [VUnit; VError Nil]]) = true.
Proof.
  apply (WaitForExit_returns_after_exit
           (State true [] false (Some 0) [] [] false
              [Client (In_WaitForExit (WFE_124 ER_33)) [] [VUnit]])
           (State true [] false None [] [] false
              [Client Idle [] [VUnit; VError Nil]])
           0 (WFE_124 ER_33) [] [] [VUnit] [VUnit; VError Nil]);
    try reflexivity.
  exists [[CExitWithoutError; CWaitForExit]], (replicate 9 (Run 0)).
  vm_compute. reflexivity.
Defined.

Lemma reason_of_not_nil (log : list error) (e : error) :
  e ∈ log → e ≠ Nil → reason_of log ≠ Nil.
Proof.
  intros Hin Hn.
  destruct log as [|x [|y l]]; simpl.
  - inversion Hin.
  - apply list_elem_of_singleton in Hin. congruence.
  - assert (Hnn : e ∈ non_nil (x :: y :: l)) by (by apply non_nil_elem).
    rewrite Join_joinError; [done|].
    intros Hnil. rewrite Hnil in Hnn. inversion Hnn.
Qed.

(** X6: a recorded reason is never lost.  Once a non-nil error is in
    [exitReasons], then after any further execution, whatever is called in
    it, [ExitReason] returns a non-nil error, and so does [WaitForExit]
    when the exit flag is set. *)
Theorem reason_never_lost (s s' : state) (trace : list label) (e : error)
    (t : tid) :
  e ∈ exitReasons s → e ≠ Nil → exec trace s = Some s' → mutex s' = None →
  (∃ r, call_run t CExitReason s' = Some (s', VError r) ∧ r ≠ Nil) ∧
  (shouldExit s' = true →
   ∃ r, call_run t CWaitForExit s' = Some (s', VError r) ∧ r ≠ Nil).
Proof.
  intros Hin Hn He Hm.
  destruct (exec_frame _ _ _ He) as (_ & _ & more & Hlog).
  assert (Hr : reason_of (exitReasons s') ≠ Nil).
  { apply (reason_of_not_nil _ e); [|done]. rewrite Hlog.
    apply elem_of_app. by left. }
  split.
  - exists (reason_of (exitReasons s')). unfold call_run.
    by rewrite ExitReason_run.
  - intros Hf. exists (reason_of (exitReasons s')). unfold call_run.
    by rewrite WaitForExit_run.
Qed.

Lemma reason_never_lost_witness :
  (∃ r, call_run 1 CExitReason
          (State true [ErrNew 0 "disk full"] false None [] [] false
             [Client Idle [] [VUnit; VUnit]]) =
        Some (State true [ErrNew 0 "disk full"] false None [] [] false
                [Client Idle [] [VUnit; VUnit]], VError r) ∧ r ≠ Nil) ∧
  (shouldExit
     (State true [ErrNew 0 "disk full"] false None [] [] false
        [Client Idle [] [VUnit; VUnit]]) = true →
   ∃ r, call_run 1 CWaitForExit
          (State true [ErrNew 0 "disk full"] false None [] [] false
             [Client Idle [] [VUnit; VUnit]]) =
        Some (State true [ErrNew 0 "disk full"] false None [] [] false
                [Client Idle [] [VUnit; VUnit]], VError r) ∧ r ≠ Nil).
Proof.
  apply (reason_never_lost
           (State true [ErrNew 0 "disk full"] false None [] [] false
              [Client Idle [CExitWithoutError] [VUnit]])
           (State true [ErrNew 0 "disk full"] false None [] [] false
              [Client Idle [] [VUnit; VUnit]])
           [Run 0; Run 0; Run 0] (ErrNew 0 "disk full") 1);
    try reflexivity; try done.
  apply list_elem_of_singleton. reflexivity.
Defined.

Lemma step_pre_store t g s s' g' :
  step_goroutine t g s = Some (s', g') →
  (exitReasons s' = exitReasons s ∨ pre_store g' = true) ∧
  (pre_store g = true → pre_store g' = true ∨ shouldExit s' = true).
Proof.
  intros H. unfold_steps. simpl in H.
  break_step; simpl; split; try done; auto.
Qed.

Lemma signal_inv_step l s s' : step l s = Some s' → signal_inv s → signal_inv s'.
Proof.
  destruct l as [t|].
  - intros (g & g' & s1 & _ & Hg & Hs & ->)%step_Run Inv Hne. simpl in *.
    destruct (step_goroutine_frame _ _ _ _ _ Hs) as (Hf & _).
    destruct (step_pre_store _ _ _ _ _ Hs) as [[Hsame|Hp] Hkeep].
    + rewrite Hsame in Hne. destruct (Inv Hne) as [Hflag|(t' & x & Hx & Hp)].
      * left. auto.
      * destruct (decide (t' = t)) as [->|Hneq].
        -- assert (x = g) by congruence. subst x.
           destruct (Hkeep Hp) as [Hp'|?]; [|by left].
           right. exists t, g'. split; [by eapply lookup_after_same|done].
        -- right. exists t', x. split; [by apply lookup_after_other|done].
    + right. exists t, g'. split; [by eapply lookup_after_same|done].
  - intros [_ ->]%step_Interrupt Inv.
    unfold interrupt. destruct (existsb _ _); simpl; apply Inv.
Qed.

Lemma signal_inv_reachable s : reachable s → signal_inv s.
Proof.
  apply reachable_invariant; [|apply signal_inv_step].
  by intros cl Hne.
Qed.

(** X7: a reason comes with an exit.  When [exitReasons] holds a reason
    and no goroutine is inside [ExitWithError] between its append (line
    57) and its store of the flag (line 49), the exit flag is set: every
    [ExitWithError] that has returned has set the flag. *)
Theorem reason_implies_exit (s : state) :
  reachable s → exitReasons s ≠ [] →
  (∀ t g, goroutines s !! t = Some g → pre_store g = false) →
  shouldExit s = true.
Proof.
  intros Hr Hne Hq.
  destruct (signal_inv_reachable _ Hr Hne) as [?|(t & g & Hg & Hp)]; [done|].
  rewrite (Hq _ _ Hg) in Hp. done.
Qed.

Lemma reason_implies_exit_witness :
  shouldExit
    (State true [ErrNew 0 "disk full"] false None [] [] false
       [Client (In_ExitWithError (EWE_59 EWO_50)) [] []]) = true.
Proof.
  apply (reason_implies_exit
           (State true [ErrNew 0 "disk full"] false None [] [] false
              [Client (In_ExitWithError (EWE_59 EWO_50)) [] []])).
  - exists [[CExitWithError (ErrNew 0 "disk full")]], (replicate 5 (Run 0)).
    vm_compute. reflexivity.
  - discriminate.
  - intros [|t] g; simpl; [|done]. by intros [= <-].
Defined.

(** ** What the callers are given *)

Lemma snapshot_grows log more e : snapshot log e → snapshot (log ++ more) e.
Proof.
  intros (l & Hp & ->). exists l. split; [|done]. by apply prefix_app_r.
Qed.

Lemma snap_grows log more g : snap log g → snap (log ++ more) g.
Proof.
  assert (HER : ∀ p, snap_ER log p → snap_ER (log ++ more) p).
  { intros []; simpl; rewrite ?length_app; try lia; try done.
    apply snapshot_grows. }
  assert (HW : ∀ p, snap_WFE log p → snap_WFE (log ++ more) p).
  { intros []; simpl; auto. }
  destruct g as [pc todo rets|[]|]; simpl; auto.
  intros [Hpc Hrets]. split.
  - destruct pc; auto.
  - eapply Forall_impl; [exact Hrets|]. intros [] ; simpl; auto.
    apply snapshot_grows.
Qed.

Lemma snapshot_nil log : snapshot log Nil.
Proof. exists []. split; [apply prefix_nil|done]. Qed.

Lemma snapshot_first log e : log !! 0 = Some e → snapshot log e.
Proof.
  destruct log as [|x l]; [done|]. intros [= ->].
  exists [e]. split; [|done]. by exists l.
Qed.

Lemma snapshot_join log : 2 ≤ length log → snapshot log (Join log).
Proof.
  intros Hl. exists log. split; [done|].
  destruct log as [|x [|y l]]; simpl in *; try lia. done.
Qed.

Lemma step_snap t g s s' g' :
  step_goroutine t g s = Some (s', g') →
  snap (exitReasons s) g → snap (exitReasons s') g'.
Proof.
  intros H. unfold_steps. simpl in H.
  break_step; simpl; try done;
    repeat match goal with
    | E : (_ =? _) = false |- _ => apply Nat.eqb_neq in E
    | E : (_ =? _) = true |- _ => apply Nat.eqb_eq in E
    end;
    intros;
    repeat match goal with
    | H : _ ∧ _ |- _ => destruct H
    | |- _ ∧ _ => split
    | |- Forall _ (_ ++ [_]) => apply Forall_app; split; [|apply Forall_singleton]
    | |- Forall _ (_ ++ _) => apply Forall_app; split
    end; simpl; auto using snapshot_nil, snapshot_first, snapshot_join;
    try lia;
    try (eapply Forall_impl; [eassumption|];
         intros []; simpl; auto; intros; by apply snapshot_grows).
  all: try (try destruct c; simpl; done).
Qed.

Lemma snap_spawned g x log : x ∈ spawned g → snap log x.
Proof. spawned_cases g H. Qed.

Lemma snap_inv_step l s s' : step l s = Some s' → snap_inv s → snap_inv s'.
Proof.
  destruct l as [t|].
  - intros (g & g' & s1 & _ & Hg & Hs & ->)%step_Run Inv t' x Hx. simpl in *.
    destruct (step_goroutine_frame _ _ _ _ _ Hs) as (_ & _ & Hlog & _).
    destruct (lookup_after _ _ _ _ _ _ _ Hg Hx) as [[-> ->]|[[Hne Hx']|Hin]].
    + eapply step_snap; eauto.
    + destruct Hlog as [->|[e ->]]; [eauto|]. apply snap_grows. eauto.
    + by eapply snap_spawned.
  - intros [_ ->]%step_Interrupt Inv.
    unfold interrupt. destruct (existsb _ _); simpl; apply Inv.
Qed.

Lemma snap_inv_reachable s : reachable s → snap_inv s.
Proof.
  apply reachable_invariant; [|apply snap_inv_step].
  intros cl t g [todo ->]%init_lookup. simpl. auto.
Qed.

(** X8: what a caller is given was once the log.  Every error that
    [ExitReason] or [WaitForExit] has returned to a caller, in whatever
    interleaving, is what line 32 to 42 make of a prefix of the present
    [exitReasons]: of the reasons recorded up to some earlier moment, in
    their order, none left out in between. *)
Theorem returned_reason_snapshot (s : state) (t : tid) (pc : client_pc)
    (todo : list call) (rets : list value) (e : error) :
  reachable s → goroutines s !! t = Some (Client pc todo rets) →
  VError e ∈ rets →
  ∃ l, l `prefix_of` exitReasons s ∧ e = reason_of l.
Proof.
  intros Inv%snap_inv_reachable Hg Hin.
  destruct (Inv _ _ Hg) as [_ Hrets].
  rewrite Forall_forall in Hrets. apply (Hrets _ Hin).
Qed.

Lemma returned_reason_snapshot_witness :
  ∃ l, l `prefix_of`
         exitReasons
           (State true [ErrNew 0 "disk full"; ErrNew 1 "timeout"] false None
              [] [] false
              [Client Idle [] [VUnit; VError (ErrNew 0 "disk full"); VUnit]]) ∧
       ErrNew 0 "disk full" = reason_of l.
Proof.
  apply (returned_reason_snapshot
           (State true [ErrNew 0 "disk full"; ErrNew 1 "timeout"] false None
              [] [] false
              [Client Idle [] [VUnit; VError (ErrNew 0 "disk full"); VUnit]])
           0 Idle [] [VUnit; VError (ErrNew 0 "disk full"); VUnit]
           (ErrNew 0 "disk full")); try reflexivity.
  - exists [[CExitWithError (ErrNew 0 "disk full"); CExitReason;
             CExitWithError (ErrNew 1 "timeout")]],
           (replicate 18 (Run 0)).
    vm_compute. reflexivity.
  - apply list_elem_of_further, list_elem_of_here.
Defined.

Lemma step_adds_reason t g s s' g' :
  step_goroutine t g s = Some (s', g') → adds_reason g = false →
  adds_reason g' = false ∧ exitReasons s' = exitReasons s.
Proof.
  intros H. unfold_steps. simpl in H.
  break_step; simpl; try done; try (destruct c; simpl; try done);
    rewrite ?orb_false_r; auto;
    try (intros [? ?]%orb_false_elim; auto).
Qed.

Lemma spawned_adds_no_reason g x : x ∈ spawned g → adds_reason x = false.
Proof. spawned_cases g H. Qed.

Lemma quiet_inv_step l s s' : step l s = Some s' → quiet_inv s → quiet_inv s'.
Proof.
  destruct l as [t|].
  - intros (g & g' & s1 & _ & Hg & Hs & ->)%step_Run [Hlog Inv]. simpl in *.
    destruct (step_adds_reason _ _ _ _ _ Hs (Inv _ _ Hg)) as [Hq Hsame].
    split; [simpl; congruence|]. simpl. intros t' x Hx.
    destruct (lookup_after _ _ _ _ _ _ _ Hg Hx) as [[-> ->]|[[Hne Hx']|Hin]];
      eauto using spawned_adds_no_reason.
  - intros [_ ->]%step_Interrupt Inv.
    unfold interrupt. destruct (existsb _ _); simpl; apply Inv.
Qed.

Lemma quiet_inv_init clients :
  Forall (λ cs, existsb is_ExitWithError cs = false) clients →
  quiet_inv (init clients).
Proof.
  intros Hcl. split; [done|]. intros t g. simpl. rewrite list_lookup_fmap.
  destruct (clients !! t) as [cs|] eqn:E; simpl; [|done]. intros [= <-].
  simpl. rewrite Forall_forall in Hcl. apply Hcl.
  by eapply list_elem_of_lookup_2.
Qed.

(** X9: no [ExitWithError], no reason.  In a program whose goroutines
    never call [ExitWithError], [exitReasons] stays empty in every
    execution, with or without interrupts, and every result of
    [ExitReason] and [WaitForExit] is nil. *)
Theorem no_error_no_reason (clients : list (list call)) (trace : list label)
    (s : state) :
  Forall (λ cs, existsb is_ExitWithError cs = false) clients →
  exec trace (init clients) = Some s →
  exitReasons s = [] ∧
  ∀ t pc todo rets e,
    goroutines s !! t = Some (Client pc todo rets) → VError e ∈ rets → e = Nil.
Proof.
  intros Hcl He.
  assert (Hq : quiet_inv s).
  { eapply (exec_invariant quiet_inv); eauto using quiet_inv_step.
    by apply quiet_inv_init. }
  destruct Hq as [Hlog _]. split; [done|].
  intros t pc todo rets e Hg Hin.
  assert (Hr : reachable s) by (by exists clients, trace).
  destruct (snap_inv_reachable _ Hr _ _ Hg) as [_ Hrets].
  rewrite Forall_forall in Hrets.
  destruct (Hrets _ Hin) as (l & Hp & ->). rewrite Hlog in Hp.
  apply prefix_nil_inv in Hp. by subst l.
Qed.

Lemma no_error_no_reason_witness :
  exitReasons
    (State true [] true None [] [Chan true false true] false
       [Client Idle [] [VUnit; VUnit; VError Nil]; Bridge (WIR_75 0)]) = [] ∧
  ∀ t pc todo rets e,
    goroutines
      (State true [] true None [] [Chan true false true] false
         [Client Idle [] [VUnit; VUnit; VError Nil]; Bridge (WIR_75 0)]) !! t =
      Some (Client pc todo rets) →
    VError e ∈ rets → e = Nil.
Proof.
  apply (no_error_no_reason
           [[CExitOnInterrupt; CExitWithoutError; CWaitForExit]]
           (replicate 6 (Run 0) ++ [Run 1; Run 1; Interrupt] ++
            replicate 10 (Run 0))
           (State true [] true None [] [Chan true false true] false
              [Client Idle [] [VUnit; VUnit; VError Nil]; Bridge (WIR_75 0)])).
  - repeat constructor.
  - vm_compute. reflexivity.
Defined.

Lemma step_installs t g s s' g' :
  step_goroutine t g s = Some (s', g') → installs g = false →
  installs g' = false ∧ chans s' = chans s ∧ spawned g = [] ∧
  signalAlreadyHandled s' = signalAlreadyHandled s.
Proof.
  intros H. unfold_steps. simpl in H.
  break_step; simpl; try done; try (destruct c; simpl; try done);
    rewrite ?orb_false_r; auto;
    try (intros [? ?]%orb_false_elim; auto).
Qed.

Lemma plain_inv_step n l s s' :
  step l s = Some s' → plain_inv n s → plain_inv n s'.
Proof.
  destruct l as [t|].
  - intros (g & g' & s1 & _ & Hg & Hs & ->)%step_Run (Hc & Hh & Hn & Inv).
    simpl in *.
    destruct (step_installs _ _ _ _ _ Hs (Inv _ _ Hg)) as (Hq & Hch & Hsp & Hh').
    rewrite Hsp, app_nil_r in *.
    split; [simpl; congruence|]. split; [simpl; congruence|].
    split; [simpl; by rewrite length_insert|]. simpl. intros t' x Hx.
    destruct (decide (t' = t)) as [->|Hne].
    + apply lookup_lt_Some in Hg.
      rewrite list_lookup_insert_eq in Hx by done. congruence.
    + rewrite list_lookup_insert_ne in Hx by done. eauto.
  - intros [_ ->]%step_Interrupt (Hc & Hh & Hn & Inv).
    unfold interrupt. rewrite Hc. simpl. done.
Qed.

Lemma plain_inv_init clients :
  Forall (λ cs, CExitOnInterrupt ∉ cs) clients →
  plain_inv (length clients) (init clients).
Proof.
  intros Hcl.
  split; [done|]. split; [done|]. split; [simpl; by rewrite length_fmap|].
  intros t g. simpl. rewrite list_lookup_fmap.
  destruct (clients !! t) as [cs|] eqn:E; simpl; [|done]. intros [= <-].
  simpl. rewrite Forall_forall in Hcl.
  assert (Hn : CExitOnInterrupt ∉ cs).
  { apply Hcl. by eapply list_elem_of_lookup_2. }
  clear -Hn. induction cs as [|c cs IH]; [done|]. simpl.
  apply not_elem_of_cons in Hn as [Hc Hn].
  rewrite IH by done. by destruct c.
Qed.

(** X10: no [ExitOnInterrupt], no handler.  In a program whose goroutines
    never call [ExitOnInterrupt], the package makes no channel and starts
    no goroutine in any execution, and an interrupt ends the process as it
    does by default. *)
Theorem no_handler_without_ExitOnInterrupt (clients : list (list call))
    (trace : list label) (s : state) :
  Forall (λ cs, CExitOnInterrupt ∉ cs) clients →
  exec trace (init clients) = Some s →
  chans s = [] ∧ length (goroutines s) = length clients ∧
  (killed s = false → step Interrupt s = Some (set_killed true s)).
Proof.
  intros Hcl He.
  assert (Hq : plain_inv (length clients) s).
  { eapply (exec_invariant (plain_inv (length clients)));
      eauto using plain_inv_step, plain_inv_init. }
  destruct Hq as (Hc & _ & Hn & _). split; [done|]. split; [done|].
  intros Hk. unfold step, interrupt. by rewrite Hk, Hc.
Qed.

Lemma no_handler_without_ExitOnInterrupt_witness :
  chans
    (State true [] false None [] [] false
       [Client Idle [CWaitForExit] [VUnit]]) = [] ∧
  length
    (goroutines
       (State true [] false None [] [] false
          [Client Idle [CWaitForExit] [VUnit]])) =
    length [[CExitWithoutError; CWaitForExit]] ∧
  (killed
     (State true [] false None [] [] false
        [Client Idle [CWaitForExit] [VUnit]]) = false →
   step Interrupt
     (State true [] false None [] [] false
        [Client Idle [CWaitForExit] [VUnit]]) =
   Some (set_killed true
           (State true [] false None [] [] false
              [Client Idle [CWaitForExit] [VUnit]]))).
Proof.
  apply (no_handler_without_ExitOnInterrupt
           [[CExitWithoutError; CWaitForExit]] [Run 0; Run 0; Run 0]
           (State true [] false None [] [] false
              [Client Idle [CWaitForExit] [VUnit]])).
  - apply Forall_singleton. intros Hin.
    apply elem_of_cons in Hin as [Hin|Hin]; [done|].
    apply list_elem_of_singleton in Hin. done.
  - vm_compute. reflexivity.
Defined.

(** ** Waking the waiters *)

Lemma WaitForExit_run_woken (t : tid) (s : state) :
  shouldExit s = true → mutex s = None → exitCond s = [] →
  run WaitForExit t 9 WFE_121_suspended s = Some (s, reason_of (exitReasons s)).
Proof.
  destruct s as [f l h m w cs k gs]; simpl; intros -> -> ->.
  destruct l as [|e1 [|e2 l]]; reflexivity.
Qed.

(** X11: a later exit wakes every waiter.  However many goroutines are
    suspended in [exitCond.Wait()], a call of [ExitWithoutError] or of
    [ExitWithError] made from then on releases them all: each one, run
    after the call, leaves the loop, and its [WaitForExit] returns what
    [ExitReason] returns, with the state as the call left it. *)
Theorem exit_wakes_waiters (s : state) (t' : tid) :
  mutex s = None →
  (∃ s1, call_run t' CExitWithoutError s = Some (s1, VUnit) ∧
         ∀ t, run WaitForExit t 9 WFE_121_suspended s1 =
              Some (s1, reason_of (exitReasons s))) ∧
  (∀ e, ∃ s1, call_run t' (CExitWithError e) s = Some (s1, VUnit) ∧
         ∀ t, run WaitForExit t 9 WFE_121_suspended s1 =
              Some (s1, reason_of (exitReasons s ++ [e]))).
Proof.
  intros Hm. split.
  - eexists. split; [reflexivity|]. intros t.
    by rewrite WaitForExit_run_woken.
  - intros e. eexists. unfold call_run. rewrite ExitWithError_run by done.
    split; [reflexivity|]. intros t.
    by rewrite WaitForExit_run_woken.
Qed.

Lemma exit_wakes_waiters_witness :
  (∃ s1, call_run 1 CExitWithoutError (asleep false) = Some (s1, VUnit) ∧
         ∀ t, run WaitForExit t 9 WFE_121_suspended s1 =
              Some (s1, reason_of (exitReasons (asleep false)))) ∧
  (∀ e, ∃ s1, call_run 1 (CExitWithError e) (asleep false) = Some (s1, VUnit) ∧
         ∀ t, run WaitForExit t 9 WFE_121_suspended s1 =
              Some (s1, reason_of (exitReasons (asleep false) ++ [e]))).
Proof. apply (exit_wakes_waiters (asleep false) 1). reflexivity. Defined.

(** ** The routine and its child *)

(** What a step does to closed channels and to the channel of the routine:
    a closed channel stays closed; the routine keeps its channel until it
    has closed it; no goroutine comes to wait on a channel but the child
    when it is started, on the channel of the routine. *)
Lemma step_closed t g s s' g' :
  step_goroutine t g s = Some (s', g') →
  (∀ i ch, chans s !! i = Some ch → closed ch = true →
           ∃ ch', chans s' !! i = Some ch' ∧ closed ch' = true) ∧
  (∀ c, is_bridge g = true → chan_of g = Some c →
        chan_of g' = Some c ∨
        ∃ ch', chans s' !! c = Some ch' ∧ closed ch' = true) ∧
  (∀ c, g' ≠ Child (CH_79 c)) ∧
  (∀ c, Child (CH_79 c) ∈ spawned g → chan_of g' = Some c).
Proof.
  intros H. unfold_steps. simpl in H.
  break_step.
  all: split; [|split; [|split]].
  all: try (intros i ch Hi Hcl; simpl;
            first [ by eauto
                  | match goal with |- context [<[?k:=_]> _ !! i] =>
                      destruct (decide (k = i)) as [->|Hne];
                      [ rewrite list_lookup_insert_eq
                          by (eapply lookup_lt_Some; eassumption);
                        eexists; split; [reflexivity|];
                        simpl; congruence
                      | rewrite list_lookup_insert_ne by done; by eauto ]
                    end
                  | rewrite lookup_app_l by (eapply lookup_lt_Some; eassumption);
                    by eauto ]).
  all: try (intros c' Hb Hc'; simpl in *; try done;
            first [ by left
                  | right; injection Hc' as <-;
                    rewrite list_lookup_insert_eq
                      by (eapply lookup_lt_Some; eassumption);
                    by eexists ]).
  all: try (intros c'; simpl; done).
  all: try (intros c' Hx; simpl in Hx;
            repeat (apply elem_of_cons in Hx as [Hx|Hx]); try (by inversion Hx);
            simpl in *; congruence).
Qed.

Lemma spawner_of_child g c : Child (CH_79 c) ∈ spawned g → is_bridge g = true.
Proof.
  intros Hin. destruct g as [[| | | | |[]|]| []|]; simpl in Hin;
    repeat (apply elem_of_cons in Hin as [Hin|Hin]); try done;
    by inversion Hin.
Qed.

Lemma released_inv_step l s s' :
  step l s = Some s' → released_inv s → released_inv s'.
Proof.
  destruct l as [t|].
  - intros (g & g' & s1 & _ & Hg & Hs & ->)%step_Run Inv t' c Hx.
    simpl in *.
    destruct (step_closed _ _ _ _ _ Hs) as (F1 & F2 & F3 & F4).
    destruct (step_kind _ _ _ _ _ Hs) as [Hk _].
    destruct (lookup_after _ _ _ _ _ _ _ Hg Hx) as [[-> Heq]|[[Hne Hx']|Hin]].
    + by destruct (F3 c).
    + destruct (Inv _ _ Hx') as [(ch & Hch & Hcl)|(tb & gb & Hb & Bb & Cb)].
      * left. eauto.
      * destruct (decide (tb = t)) as [->|Hnb].
        -- assert (gb = g) by congruence. subst gb.
           destruct (F2 _ Bb Cb) as [Hc'|?]; [|by left].
           right. exists t, g'. split; [by eapply lookup_after_same|].
           split; congruence.
        -- right. exists tb, gb. split; [by apply lookup_after_other|done].
    + right. exists t, g'. split; [by eapply lookup_after_same|].
      split; [|by apply F4]. rewrite Hk. by eapply spawner_of_child.
  - intros [_ ->]%step_Interrupt Inv t c Hx.
    unfold interrupt in *. destruct (existsb _ _); simpl in *; [|by eapply Inv].
    destruct (Inv _ _ Hx) as [(ch & Hch & Hcl)|?]; [|by right].
    left. exists (deliver ch). rewrite list_lookup_fmap, Hch. split; [done|].
    unfold deliver. by destruct (notified ch).
Qed.

Lemma released_inv_reachable s : reachable s → released_inv s.
Proof.
  apply reachable_invariant; [|apply released_inv_step].
  intros cl t c [todo Heq]%init_lookup. done.
Qed.

(** X12: the child is not left behind.  Once [waitForInterruptRoutine]
    has returned, the goroutine it started at line 75 is not blocked on
    the channel: if it is still at the receive of line 79, the receive
    can proceed, because line 87 has closed the channel. *)
Theorem child_released (s : state) (t : tid) (c : nat) :
  reachable s → killed s = false →
  goroutines s !! t = Some (Child (CH_79 c)) →
  (∀ t' g, goroutines s !! t' = Some g → is_bridge g = true →
           g = Bridge WIR_ret) →
  is_Some (step (Run t) s).
Proof.
  intros Hr Hk Hg Hb.
  destruct (released_inv_reachable _ Hr _ _ Hg)
    as [(ch & Hch & Hcl)|(tb & gb & Hgb & Bb & Cb)].
  - unfold step. rewrite Hk, Hg. simpl. unfold receive. rewrite Hch, Hcl.
    simpl. destruct (buf ch); simpl; eauto.
  - rewrite (Hb _ _ Hgb Bb) in Cb. done.
Qed.

Lemma child_released_witness :
  is_Some
    (step (Run 2)
       (State true [] true None [] [Chan false true false] false
          [Client Idle [] [VUnit; VUnit]; Bridge WIR_ret; Child (CH_79 0)])).
Proof.
  apply (child_released
           (State true [] true None [] [Chan false true false] false
              [Client Idle [] [VUnit; VUnit]; Bridge WIR_ret; Child (CH_79 0)])
           2 0); try reflexivity.
  - exists [[CExitOnInterrupt; CExitWithoutError]],
           (replicate 9 (Run 0) ++ replicate 11 (Run 1)).
    vm_compute. reflexivity.
  - intros [|[|[|t']]] g; simpl; try done; by intros [= <-].
Defined.

Lemma step_registered t g s s' g' :
  step_goroutine t g s = Some (s', g') →
  (∀ i ch, chans s !! i = Some ch →
           ∃ ch', chans s' !! i = Some ch' ∧
                  (notified ch' = notified ch ∨ is_bridge g = true)) ∧
  (∀ c, listens g' c = true →
        (listens g c = true ∧ chans s' = chans s) ∨
        ∃ ch', chans s' !! c = Some ch' ∧ notified ch' = true).
Proof.
  intros H. unfold_steps. simpl in H.
  break_step.
  all: split.
  all: try (intros i ch Hi; simpl;
            first [ by eauto
                  | match goal with |- context [<[?k:=_]> _ !! i] =>
                      destruct (decide (k = i)) as [->|Hne];
                      [ rewrite list_lookup_insert_eq
                          by (eapply lookup_lt_Some; eassumption);
                        eexists; split; [reflexivity|];
                        simpl; first [left; congruence | by right]
                      | rewrite list_lookup_insert_ne by done; by eauto ]
                    end
                  | rewrite lookup_app_l by (eapply lookup_lt_Some; eassumption);
                    by eauto ]).
  all: try (intros c' Hc'; simpl in *; try done;
            first [ by left
                  | right; apply Nat.eqb_eq in Hc'; subst c';
                    rewrite list_lookup_insert_eq
                      by (eapply lookup_lt_Some; eassumption);
                    by eexists ]).
Qed.

Lemma spawned_not_listening g x c : x ∈ spawned g → listens x c = false.
Proof. spawned_cases g H. Qed.

Lemma listen_inv_step l s s' :
  step l s = Some s' → bridges (goroutines s) ≤ 1 → listen_inv s → listen_inv s'.
Proof.
  destruct l as [t|].
  - intros (g & g' & s1 & _ & Hg & Hs & ->)%step_Run B Inv t' x c Hx Hc.
    simpl in *.
    destruct (step_registered _ _ _ _ _ Hs) as (F1 & F2).
    destruct (lookup_after _ _ _ _ _ _ _ Hg Hx) as [[-> ->]|[[Hne Hx']|Hin]].
    + destruct (F2 _ Hc) as [[Hc' Hsame]|?]; [|done].
      rewrite Hsame. eauto.
    + destruct (Inv _ _ _ Hx' Hc) as (ch & Hch & Hn).
      destruct (F1 _ _ Hch) as (ch' & Hch' & [Hsame|Hb]).
      * exists ch'. split; [done|]. congruence.
      * exfalso. apply Hne. eapply bridges_unique; eauto.
        by eapply listens_is_bridge.
    + by rewrite (spawned_not_listening _ _ _ Hin) in Hc.
  - intros [_ ->]%step_Interrupt _ Inv t g c Hg Hc.
    unfold interrupt in *. destruct (existsb _ _); simpl in *; [|by eapply Inv].
    destruct (Inv _ _ _ Hg Hc) as (ch & Hch & Hn).
    exists (deliver ch). rewrite list_lookup_fmap, Hch. split; [done|].
    unfold deliver. by rewrite Hn.
Qed.

Lemma listen_inv_reachable s : reachable s → listen_inv s.
Proof.
  intros Hr. cut (inv s ∧ listen_inv s); [tauto|]. revert s Hr.
  apply reachable_invariant.
  - intros cl. split; [apply inv_init|].
    intros t g c [todo ->]%init_lookup. done.
  - intros l s s' Hs [I L]. split; [by eapply inv_step|].
    eapply listen_inv_step; eauto. by destruct I as (_ & (_ & _ & ? & _) & _).
Qed.

(** X13: the handler stays until the exit.  From the moment the routine
    has called [signal.Notify] and as long as the exit flag is not set,
    its channel is registered: an interrupt does not end the process and
    stops no goroutine.  Lines 86 and 87 run only after an exit. *)
Theorem handler_stays_until_exit (s : state) (t : tid) (g : goroutine) :
  reachable s → killed s = false → goroutines s !! t = Some g →
  past_Notify g = true → shouldExit s = false →
  ∃ s', step Interrupt s = Some s' ∧ killed s' = false ∧
        goroutines s' = goroutines s.
Proof.
  intros Hr Hk Hg Hp Hf.
  assert (∃ c, listens g c = true) as [c Hc].
  { destruct (past_loop g) eqn:E.
    - rewrite (flag_inv_reachable _ Hr _ _ Hg E) in Hf. done.
    - destruct g as [|[]|]; simpl in *; try done; eexists; apply Nat.eqb_refl. }
  destruct (listen_inv_reachable _ Hr _ _ _ Hg Hc) as (ch & Hch & Hn).
  exists (interrupt s). unfold step. rewrite Hk. split; [done|].
  unfold interrupt.
  rewrite (existsb_notified_intro _ _ _ Hch Hn). simpl. done.
Qed.

Lemma handler_stays_until_exit_witness :
  ∃ s', step Interrupt
          (State false [] true None [1] [Chan false false true] false
             [Client Idle [] [VUnit]; Bridge (WIR_85 0 WFE_121_suspended);
              Child (CH_79 0)]) = Some s' ∧
        killed s' = false ∧
        goroutines s' =
        goroutines
          (State false [] true None [1] [Chan false false true] false
             [Client Idle [] [VUnit]; Bridge (WIR_85 0 WFE_121_suspended);
              Child (CH_79 0)]).
Proof.
  apply (handler_stays_until_exit
           (State false [] true None [1] [Chan false false true] false
              [Client Idle [] [VUnit]; Bridge (WIR_85 0 WFE_121_suspended);
               Child (CH_79 0)])
           1 (Bridge (WIR_85 0 WFE_121_suspended))); try reflexivity.
  exists [[CExitOnInterrupt]], (replicate 6 (Run 0) ++ replicate 6 (Run 1)).
  vm_compute. reflexivity.
Defined.

(** X14: [ExitOnInterrupt] returns before the handler is installed.  The
    first call starts the routine and returns; [signal.Notify] is called
    by the routine, later.  An interrupt that arrives right after the
    call has returned still ends the process. *)
Theorem ExitOnInterrupt_before_Notify (s : state) (t : tid) :
  reachable s → killed s = false → mutex s = None →
  signalAlreadyHandled s = false →
  ∃ s1, call_run t CExitOnInterrupt s = Some (s1, VUnit) ∧
        signalAlreadyHandled s1 = true ∧
        step Interrupt s1 = Some (set_killed true s1).
Proof.
  intros Hr Hk Hm Hh.
  destruct (inv_reachable _ Hr) as (Mx & (_ & B2 & _ & B4 & _) & N & _).
  assert (Hb : bridges (goroutines s) = 0).
  { destruct (B4 Hh) as [?|(t' & g & Hg & Ha)]; [done|].
    assert (critical g = true) by (by destruct g as [[| | | | |[]|]| |]).
    pose proof (Mx _ _ Hg H). congruence. }
  assert (Hn : existsb notified (chans s) = false).
  { destruct (existsb notified (chans s)) eqn:E; [|done].
    apply existsb_notified_elim in E as (c & ch & Hc & Hn).
    destruct (N _ _ Hc Hn) as (t' & g' & Hg' & L).
    apply listens_is_bridge in L.
    pose proof (bridges_zero _ _ _ Hb Hg'). congruence. }
  eexists. unfold call_run. rewrite ExitOnInterrupt_run_first by done.
  split; [reflexivity|]. split; [done|].
  unfold step, interrupt. simpl. by rewrite Hk, Hn.
Qed.

Lemma ExitOnInterrupt_before_Notify_witness :
  ∃ s1, call_run 0 CExitOnInterrupt (init [[]]) = Some (s1, VUnit) ∧
        signalAlreadyHandled s1 = true ∧
        step Interrupt s1 = Some (set_killed true s1).
Proof.
  apply (ExitOnInterrupt_before_Notify (init [[]]) 0); try reflexivity.
  exists [[]], []. reflexivity.
Defined.

(** ** ExitWithErrorf *)

Lemma ExitWithErrorf_run {any : Type} (Errorf : string → list any → error)
    (t : tid) (format : string) (args : list any) (s : state) :
  mutex s = None →
  run (ExitWithErrorf Errorf) t 6 (EWF_64 format args) s =
  Some (set_exitCond []
          (set_shouldExit true
             (set_exitReasons (exitReasons s ++ [Errorf format args]) s)), tt).
Proof. destruct s; simpl; intros ->; reflexivity. Qed.

(** X15: [ExitWithErrorf] always leaves a reason.  [fmt.Errorf] never
    returns nil, so a call of [ExitWithErrorf] does what [ExitWithError]
    does with the formatted error, and from then on, whatever else runs,
    [WaitForExit] returns a non-nil error. *)
Theorem ExitWithErrorf_reason {any : Type}
    (Errorf : string → list any → error) (t : tid) (format : string)
    (args : list any) (s : state) :
  (∀ f a, Errorf f a ≠ Nil) → mutex s = None →
  ∃ s1, run (ExitWithErrorf Errorf) t 6 (EWF_64 format args) s = Some (s1, tt) ∧
        run ExitWithError t 5 (EWE_56 (Errorf format args)) s = Some (s1, tt) ∧
        ∀ trace s' t', exec trace s1 = Some s' → mutex s' = None →
          ∃ r, call_run t' CWaitForExit s' = Some (s', VError r) ∧ r ≠ Nil.
Proof.
  intros Hn Hm. eexists. split; [by apply ExitWithErrorf_run|].
  split; [by apply ExitWithError_run|].
  intros trace s' t' He Hm'.
  destruct (exec_frame _ _ _ He) as (Hf & _ & more & Hlog). simpl in Hf, Hlog.
  exists (reason_of (exitReasons s')). unfold call_run.
  rewrite WaitForExit_run by auto. split; [done|].
  apply (reason_of_not_nil _ (Errorf format args)); [|done].
  rewrite Hlog. apply elem_of_app. left. apply elem_of_app. right.
  by apply list_elem_of_singleton.
Qed.

Lemma ExitWithErrorf_reason_witness :
  ∃ s1, run (ExitWithErrorf (λ f (a : list Z), ErrNew 0 f)) 0 6
          (EWF_64 "worker %d failed" [7%Z]) (init [[]]) = Some (s1, tt) ∧
        run ExitWithError 0 5 (EWE_56 (ErrNew 0 "worker %d failed")) (init [[]])
          = Some (s1, tt) ∧
        ∀ trace s' t', exec trace s1 = Some s' → mutex s' = None →
          ∃ r, call_run t' CWaitForExit s' = Some (s', VError r) ∧ r ≠ Nil.
Proof.
  apply (ExitWithErrorf_reason (λ f (a : list Z), ErrNew 0 f) 0
           "worker %d failed" [7%Z] (init [[]])); [|reflexivity].
  intros f a. discriminate.
Defined.

(** ** The worker of the demonstration program *)

Lemma wrap_small (z : Z) : (- 2 ^ 63 ≤ z < 2 ^ 63)%Z → wrap z = z.
Proof.
  intros H. unfold wrap.
  rewrite Z.mod_small by lia. lia.
Qed.

Lemma sleeps_app evs1 evs2 : sleeps (evs1 ++ evs2) = sleeps evs1 + sleeps evs2.
Proof.
  induction evs1 as [|[] evs1 IH]; simpl; [done|done|]. by rewrite IH.
Qed.

(** Every step of the worker is enabled, and brings it nearer to its
    return. *)
Lemma runWorker_progress (workerID n : Z) (t : tid) (pc : runWorker_pc)
    (s : state) :
  (n < 2 ^ 63)%Z → in_loop n pc →
  ∃ s' ev o, runWorker workerID n t pc s = Some (s', ev, o) ∧
    match o with
    | inl pc' =>
        in_loop n pc' ∧ steps_left n pc' < steps_left n pc ∧
        sleeps ev + sleeps_left n pc' ≤ sleeps_left n pc
    | inr _ => sleeps ev = 0
    end.
Proof.
  intros Hn Hin. destruct pc as [| |i|i|i|i [|]|i]; simpl in *.
  - do 3 eexists. split; [reflexivity|]. simpl. lia.
  - do 3 eexists. split; [reflexivity|]. simpl.
    rewrite Z.sub_0_r. lia.
  - destruct (i <? n)%Z eqn:E.
    + apply Z.ltb_lt in E. do 3 eexists. split; [reflexivity|]. simpl. lia.
    + do 3 eexists. split; [reflexivity|]. simpl. lia.
  - destruct (ShouldExit s).
    + do 3 eexists. split; [reflexivity|]. simpl. lia.
    + do 3 eexists. split; [reflexivity|]. simpl. lia.
  - do 3 eexists. split; [reflexivity|].
    rewrite wrap_small by lia. simpl. lia.
  - do 3 eexists. split; [reflexivity|]. simpl. lia.
  - do 3 eexists. split; [reflexivity|]. simpl. lia.
  - do 3 eexists. split; [reflexivity|]. simpl. done.
Qed.

Lemma runWorker_finishes (workerID n : Z) (t : tid)
    (others : list (state → state)) (pc : runWorker_pc) (s : state) :
  (n < 2 ^ 63)%Z → in_loop n pc → steps_left n pc ≤ length others →
  ∃ s' evs,
    run_among (runWorker workerID n) t others pc s = Some (s', evs, inr tt) ∧
    sleeps evs ≤ sleeps_left n pc.
Proof.
  intros Hn. revert pc s.
  induction others as [|other rest IH]; intros pc s Hin Hlen.
  - destruct pc as [| |i|i|i|i [|]|i]; simpl in Hlen; lia.
  - cbn [run_among].
    destruct (runWorker_progress workerID n t pc (other s) Hn Hin)
      as (s1 & ev & [pc'|[]] & -> & Hstep); cbn [mbind option_bind].
    + destruct Hstep as (Hin' & Hlt & Hsl).
      destruct (IH pc' s1 Hin') as (s2 & evs & -> & Hevs).
      { simpl in Hlen. lia. }
      cbn [mbind option_bind]. do 2 eexists. split; [reflexivity|].
      rewrite sleeps_app. lia.
    + do 2 eexists. split; [reflexivity|]. lia.
Qed.

(** X16: the worker returns.  Whatever the rest of the program does to
    the state between its steps, a worker asked for [n] iterations
    returns within [3 n + 6] steps of its own, none of which can block,
    and it has slept [n] times at most. *)
Theorem runWorker_terminates (workerID n : Z) (t : tid)
    (others : list (state → state)) (s : state) :
  (n < 2 ^ 63)%Z → 3 * Z.to_nat n + 6 ≤ length others →
  ∃ s' evs,
    run_among (runWorker workerID n) t others RW_23 s = Some (s', evs, inr tt) ∧
    sleeps evs ≤ Z.to_nat n.
Proof.
  intros Hn Hlen. by apply runWorker_finishes.
Qed.

Lemma runWorker_terminates_witness :
  ∃ s' evs,
    run_among (runWorker 4 2) 1
      (replicate 6 (after [Run 0]) ++ replicate 6 id) RW_23
      (init [[CExitWithoutError]]) = Some (s', evs, inr tt) ∧
    sleeps evs ≤ Z.to_nat 2.
Proof.
  apply (runWorker_terminates 4 2 1
           (replicate 6 (after [Run 0]) ++ replicate 6 id)
           (init [[CExitWithoutError]])).
  - reflexivity.
  - vm_compute. lia.
Defined.

Lemma runWorker_flagged (workerID n : Z) (t : tid) (pc : runWorker_pc)
    (s : state) :
  shouldExit s = true →
  ∃ s' ev o, runWorker workerID n t pc s = Some (s', ev, o) ∧
    shouldExit s' = true ∧ sleeps ev = at_Sleep pc ∧
    match o with
    | inl pc' =>
        steps_left_flagged pc' < steps_left_flagged pc ∧ at_Sleep pc' = 0
    | inr _ => True
    end.
Proof.
  intros Hf. destruct pc as [| |i|i|i|i [|]|i]; simpl in *;
    unfold ShouldExit; rewrite ?Hf; try destruct (i <? n)%Z;
    do 3 eexists; (split; [reflexivity|]); simpl; repeat split; auto; try lia.
Qed.

Lemma after_keeps_flag (trace : list label) : keeps_flag (after trace).
Proof.
  intros s Hf. unfold after. destruct (exec trace s) as [s'|] eqn:E; [|done].
  simpl. destruct (exec_frame _ _ _ E) as (H & _). auto.
Qed.

(** X17: the worker stops when told to.  Once the exit flag is set, and
    the rest of the program does not reset it (the package never does), a
    worker returns within seven steps of its own wherever it is, and it
    starts no sleep: it sleeps once more only if it was already past the
    test of line 26. *)
Theorem runWorker_stops_on_exit (workerID n : Z) (t : tid)
    (others : list (state → state)) (pc : runWorker_pc) (s : state) :
  shouldExit s = true → Forall keeps_flag others → 7 ≤ length others →
  ∃ s' evs,
    run_among (runWorker workerID n) t others pc s = Some (s', evs, inr tt) ∧
    sleeps evs = at_Sleep pc.
Proof.
  intros Hf Hk Hlen.
  assert (Hlen' : steps_left_flagged pc ≤ length others).
  { destruct pc as [| |i|i|i|i [|]|i]; simpl; lia. }
  clear Hlen. revert pc s Hf Hlen'.
  induction Hk as [|other rest Hother Hk IH]; intros pc s Hf Hlen.
  - destruct pc as [| |i|i|i|i [|]|i]; simpl in Hlen; lia.
  - cbn [run_among].
    destruct (runWorker_flagged workerID n t pc (other s) (Hother _ Hf))
      as (s1 & ev & [pc'|[]] & -> & Hf' & Hev & Hstep); cbn [mbind option_bind].
    + destruct Hstep as [Hlt Hz].
      destruct (IH pc' s1 Hf') as (s2 & evs & -> & Hevs).
      { simpl in Hlen. lia. }
      cbn [mbind option_bind]. do 2 eexists. split; [reflexivity|].
      rewrite sleeps_app. lia.
    + do 2 eexists. split; [reflexivity|]. done.
Qed.

Lemma runWorker_stops_on_exit_witness :
  ∃ s' evs,
    run_among (runWorker 4 10) 1 (replicate 7 (after [Run 0])) (RW_26 3)
      (State true [] false None [] [] false [Client Idle [CExitReason] [VUnit]])
      = Some (s', evs, inr tt) ∧
    sleeps evs = at_Sleep (RW_26 3).
Proof.
  apply (runWorker_stops_on_exit 4 10 1 (replicate 7 (after [Run 0])) (RW_26 3)
           (State true [] false None [] [] false
              [Client Idle [CExitReason] [VUnit]])).
  - reflexivity.
  - repeat constructor; apply after_keeps_flag.
  - vm_compute. lia.
Defined.

(** The loop run with nobody else changing the state and the flag unset. *)
Lemma runWorker_loop (workerID n : Z) (t : tid) (k : nat) (i : Z) (s : state)
    (fuel : nat) :
  shouldExit s = false → (0 ≤ i)%Z → (n < 2 ^ 63)%Z →
  k = Z.to_nat (n - i) → 3 * k + 4 ≤ fuel →
  run_among (runWorker workerID n) t (replicate fuel id) (RW_25 i) s =
  Some (set_exitCond [] (set_shouldExit true s),
        replicate k (Sleep 1) ++
          [Printf format_32 [workerID; wrap (Z.max i n + 1); n]],
        inr tt).
Proof.
  intros Hf. revert i fuel.
  induction k as [|k IH]; intros i fuel Hi Hn Hk Hfuel.
  - assert (n ≤ i)%Z by lia.
    do 4 (destruct fuel as [|fuel]; [lia|]).
    cbn -[wrap Z.ltb Z.add Z.max].
    assert ((i <? n)%Z = false) as -> by (by apply Z.ltb_ge).
    cbn -[wrap Z.ltb Z.add Z.max]. rewrite Z.max_l by lia. done.
  - assert (i < n)%Z by lia.
    do 3 (destruct fuel as [|fuel]; [lia|]).
    cbn -[wrap Z.ltb Z.add Z.max].
    assert ((i <? n)%Z = true) as -> by (by apply Z.ltb_lt).
    cbn -[wrap Z.ltb Z.add Z.max]. unfold ShouldExit. rewrite Hf.
    cbn -[wrap Z.ltb Z.add Z.max].
    rewrite wrap_small by lia.
    rewrite (IH (i + 1)%Z fuel) by lia.
    cbn -[wrap Z.ltb Z.add Z.max].
    rewrite (Z.max_r i n), (Z.max_r (i + 1) n) by lia. done.
Qed.

(** X18: what a worker left alone does and prints.  Started with the exit
    flag unset and nothing else running, a worker asked for [n]
    iterations prints its first line, sleeps [n] times (not at all for a
    negative [n]), sets the exit flag and wakes the waiters, touching
    nothing else, and then reports [n + 1] iterations of [n]: the count
    it prints is one more than the sleeps it made. *)
Theorem runWorker_alone (workerID n : Z) (t : tid) (s : state) (fuel : nat) :
  shouldExit s = false → (n < 2 ^ 63)%Z → 3 * Z.to_nat n + 6 ≤ fuel →
  run_among (runWorker workerID n) t (replicate fuel id) RW_23 s =
  Some (set_exitCond [] (set_shouldExit true s),
        Printf format_23 [workerID; n] ::
          replicate (Z.to_nat n) (Sleep 1) ++
          [Printf format_32 [workerID; wrap (Z.max 0 n + 1); n]],
        inr tt).
Proof.
  intros Hf Hn Hfuel.
  do 2 (destruct fuel as [|fuel]; [lia|]).
  cbn -[wrap Z.ltb Z.add Z.max].
  rewrite (runWorker_loop workerID n t (Z.to_nat n) 0 s fuel); try done; try lia.
Qed.

Lemma runWorker_alone_witness :
  run_among (runWorker 4 2) 1 (replicate 12 id) RW_23 (init [[]]) =
  Some (set_exitCond [] (set_shouldExit true (init [[]])),
        Printf format_23 [4%Z; 2%Z] ::
          replicate (Z.to_nat 2) (Sleep 1) ++
          [Printf format_32 [4%Z; wrap (Z.max 0 2 + 1); 2%Z]],
        inr tt).
Proof.
  apply (runWorker_alone 4 2 1 (init [[]]) 12).
  - reflexivity.
  - reflexivity.
  - vm_compute. lia.
Defined.
